(** * flow-rosetta: resolver, script generator, value normalizer, fixed-point converter

A shallow embedding of four pieces of the gateway:

- [validator.Block]               (package validator, block identifier resolution),
- [scripts.Generator]             (package scripts, script templates and overrides),
- [retriever.flatten]             (package retriever, result normalisation),
- [retriever.UFix64ToUInt64String] (package retriever, fixed-point conversion).

Go multi-value returns are pairs and triples; a Go [error] is an
[option error] ([None] is [nil]).  A run-time panic is an explicit
[outcome].  Calls to the chain-access client thread an abstract world. *)

From Stdlib Require Import NArith Ascii String Decimal DecimalString DecimalN DecimalPos DecimalFacts Lia.
From stdpp Require Import gmap strings list.

Set Warnings "-register-all".
#[local] Open Scope string_scope.
#[local] Open Scope list_scope.
#[local] Open Scope N_scope.

(** ** Go run-time values shared by the packages *)

(** fmt.Errorf and errors.New build the two first shapes; the three last
    ones are the structured failures of package failure. *)
Module failure.

(** A diagnostic field: failure.WithString or failure.WithUint64. *)
Inductive Field :=
| WithString (key : string) (val : string)
| WithUint64 (key : string) (val : N).

(** failure.Description: a text and its ordered fields. *)
Record Description := NewDescription { Text : string; Fields : list Field }.

End failure.

Inductive error :=
| errorString (msg : string)
| wrapError (msg : string) (err : error)
| InvalidBlock (Description : failure.Description)
| UnknownBlock (Index : N) (Hash : string) (Description : failure.Description)
| IncompleteBlock (Description : failure.Description).

(** A panic of the Go run time. *)
Inductive panic :=
| IndexOutOfRange (index : nat) (len : nat)
| NilDereference
| MustFailed (err : error).

Inductive outcome (A : Type) :=
| Done (a : A)
| Panic (p : panic).
Arguments Done {A} a.
Arguments Panic {A} p.

(** ** Package strconv *)
Module strconv.

(** strconv.FormatUint(v, 10): the decimal numeral of [v], no sign, no
    leading zero, ["0"] for zero. *)
Definition FormatUint (v : N) : string :=
  NilEmpty.string_of_uint (N.to_uint v).

End strconv.

(** ** Package cadence: the values an executed script returns *)
Module cadence.

Record Field := { Identifier : string }.

Record StructType := { Fields : list Field }.

(** cadence.Value is an interface.  [flatten] tells three
    implementations apart (Struct, Dictionary, Array); every other one
    is a [Scalar], identified by a tag.  A Struct holds a pointer to its
    type ([None] is the nil pointer) and its field values; a Dictionary
    holds key/value pairs in order. *)
Inductive Value :=
| Struct (StructType : option StructType) (Fields : list Value)
| Dictionary (Pairs : list (Value * Value))
| Array (Values : list Value)
| Scalar (tag : string).

(** The two library functions [flatten] calls on a value's text: the
    String method of cadence.Value ([ValueString]) and strconv.Unquote. *)
Class Text := {
  ValueString : Value -> string;
  Unquote : string -> string * option error;
}.

Definition maxUFix64 : N := 2 ^ 64 - 1.

Definition Fix64Scale : nat := 8.

Definition Fix64Factor : N := 10 ^ 8.

(** The part of [s] before its first dot and the part after it. *)
Fixpoint splitDot (s : string) : option (string * string) :=
  match s with
  | EmptyString => None
  | String c rest =>
      if Ascii.eqb c "."%char then Some (EmptyString, rest)
      else match splitDot rest with
           | Some (ip, fp) => Some (String c ip, fp)
           | None => None
           end
  end.

(** Modelled from the spec: cadence.NewUFix64, the parser of the
    fixed-point library, is not part of the sources.  Section 4.4: the
    input is an unsigned fixed-point numeral with exactly 8 fractional
    digits; a wrong digit count, a sign or a non-digit is a parse error.
    The result is the 64-bit integer value * 10^8 that UFix64 stores, so
    a numeral beyond [maxUFix64] is a parse error as well. *)
Definition NewUFix64 (s : string) : N * option error :=
  match splitDot s with
  | None => (0, Some (errorString "missing decimal point"))
  | Some (ip, fp) =>
      match NilZero.uint_of_string ip, NilEmpty.uint_of_string fp with
      | Some i, Some f =>
          if negb (String.length fp =? Fix64Scale)%nat
          then (0, Some (errorString "invalid fractional part"))
          else
            let v := N.of_uint i * Fix64Factor + N.of_uint f in
            if maxUFix64 <? v
            then (0, Some (errorString "out of range"))
            else (v, None)
      | None, _ => (0, Some (errorString "invalid integer part"))
      | _, None => (0, Some (errorString "invalid fractional part"))
      end
  end.

End cadence.

(** ** Package retriever: flatten and UFix64ToUInt64String *)
Module retriever.
  Import cadence.

(** The tree flatten builds: interface{} holding a string, a
    []interface{} or a map[string]interface{}. *)
Inductive Flat :=
| FString (s : string)
| FList (items : list Flat)
| FMap (entries : gmap string Flat).

(** The loop over structValue.Fields: the j-th value is stored under the
    j-th declared name. *)
Definition flattenFields (flatten : Value -> outcome Flat) (subStructNames : list Field) :
    nat -> list Value -> gmap string Flat -> outcome Flat :=
  fix loop j fields result :=
    match fields with
    | [] => Done (FMap result)
    | subField :: rest =>
        match subStructNames !! j with
        | None => Panic (IndexOutOfRange j (length subStructNames))
        | Some name =>
            match flatten subField with
            | Done t => loop (S j) rest (<[Identifier name := t]> result)
            | Panic p => Panic p
            end
        end
    end.

(** The loop over dictionaryValue.Pairs. *)
Definition flattenPairs `{Text} (flatten : Value -> outcome Flat) :
    list (Value * Value) -> gmap string Flat -> outcome Flat :=
  fix loop pairs result :=
    match pairs with
    | [] => Done (FMap result)
    | item :: rest =>
        match flatten item.2 with
        | Done t => loop rest (<[ValueString item.1 := t]> result)
        | Panic p => Panic p
        end
    end.

(** The loop over arrayValue.Values. *)
Definition flattenValues (flatten : Value -> outcome Flat) :
    list Value -> list Flat -> outcome Flat :=
  fix loop values result :=
    match values with
    | [] => Done (FList result)
    | item :: rest =>
        match flatten item with
        | Done t => loop rest (result ++ [t])
        | Panic p => Panic p
        end
    end.

Fixpoint flatten `{Text} (field : Value) : outcome Flat :=
  match field with
  | Struct structType fields =>
      match structType with
      | None => Panic NilDereference
      | Some ty => flattenFields flatten (Fields ty) 0%nat fields ∅
      end
  | Dictionary pairs => flattenPairs flatten pairs ∅
  | Array values => flattenValues flatten values []
  | Scalar _ =>
      match Unquote (ValueString field) with
      | (result, None) => Done (FString result)
      | (_, Some _) => Done (FString (ValueString field))
      end
  end.

(** "1.00000000" -> "100000000" *)
Definition UFix64ToUInt64String (UFix64 : string) : string * option error :=
  match NewUFix64 UFix64 with
  | (_, Some err) => (EmptyString, Some err)
  | (ufix, None) => (strconv.FormatUint ufix, None)
  end.

End retriever.

(** ** Package identifier *)
Module identifier.

(** identifier.Block: Index is a *uint64 ([None] is nil), Hash is empty
    when absent. *)
Record Block := { Index : option N; Hash : string }.

End identifier.

(** ** Packages flow and sdk: block identifiers and the access client *)
Module flow.

(** flow.ChainID is a string type. *)
Abbreviation ChainID := string (only parsing).

Definition Mainnet : ChainID := "flow-mainnet".

(** flow.Address: 8 bytes, read here as the number they spell, most
    significant byte first. *)
Abbreviation Address := N (only parsing).

Definition AddressLength : N := 8.

Definition hexDigit (c : ascii) : option N :=
  let n := N_of_ascii c in
  if (48 <=? n) && (n <=? 57) then Some (n - 48)
  else if (97 <=? n) && (n <=? 102) then Some (n - 87)
  else if (65 <=? n) && (n <=? 70) then Some (n - 55)
  else None.

(** The number a string of hexadecimal digits spells. *)
Fixpoint hexValue (acc : N) (s : string) : option N :=
  match s with
  | EmptyString => Some acc
  | String c rest =>
      match hexDigit c with
      | Some d => hexValue (16 * acc + d) rest
      | None => None
      end
  end.

Definition trimPrefix0x (h : string) : string :=
  match h with
  | String "0" (String "x" rest) => rest
  | _ => h
  end.

(** flow.HexToAddress: the low 8 bytes of the decoded digits, and the
    empty address when [h] is no hexadecimal numeral. *)
Definition HexToAddress (h : string) : Address :=
  match hexValue 0 (trimPrefix0x h) with
  | Some n => n mod 2 ^ (8 * AddressLength)
  | None => 0
  end.

Definition hexChar (d : N) : ascii :=
  if d <? 10 then ascii_of_N (48 + d) else ascii_of_N (87 + d).

(** The [count] low hexadecimal digits of [n], most significant first. *)
Fixpoint hexDigits (count : nat) (n : N) (tail : string) : string :=
  match count with
  | O => tail
  | S count' => hexDigits count' (n / 16) (String (hexChar (n mod 16)) tail)
  end.

(** Address.String: 16 lower-case hexadecimal digits. *)
Definition AddressString (a : Address) : string :=
  hexDigits 16 a EmptyString.

(** flow.Identifier and sdk.Identifier are the same 32-byte array; the
    conversion flow.Identifier(id) between them is the identity.  Their
    hexadecimal codec belongs to the chain libraries. *)
Class Identifiers := {
  Identifier : Type;
  ZeroID : Identifier;
  HexStringToIdentifier : string -> Identifier * option error;
  HexToID : string -> Identifier;
  Hex : Identifier -> string;
}.

Record BlockHeader `{Identifiers} := { ID : Identifier; Height : N }.

(** The access client the validator holds (v.accessAPI).  A call reads
    the chain as it is when the call is made and may find it changed by
    the next call: every call takes a world and returns the next one. *)
Class AccessAPI `{Identifiers} (World : Type) := {
  GetLatestBlockHeader : bool -> World -> (error + BlockHeader) * World;
  GetBlockHeaderByID : Identifier -> World -> (error + BlockHeader) * World;
  GetBlockHeaderByHeight : N -> World -> (error + BlockHeader) * World;
}.

End flow.

(** ** Package validator *)
Module validator.
  Import failure identifier flow.

(** The description texts of the package; their declarations are not
    part of this development, so they are parameters. *)
Class Texts := {
  blockInvalid : string;
  blockNotFull : string;
  blockTooLow : string;
  blockTooHigh : string;
  blockMismatch : string;
}.

(** A computation that calls the access client and may return early with
    an error. *)
Definition M (World A : Type) : Type := World -> (error + A) * World.

#[global] Instance M_ret {World} : MRet (M World) :=
  fun A a w => (inr a, w).

#[global] Instance M_bind {World} : MBind (M World) :=
  fun A B k m w =>
    match m w with
    | (inl err, w') => (inl err, w')
    | (inr a, w') => k a w'
    end.

(** return 0, flow.ZeroID, err *)
Definition fail {World A} (err : error) : M World A :=
  fun w => (inl err, w).

(** x, err := call; if err != nil { return ..., fmt.Errorf("msg: %w", err) } *)
Definition try {World A} (msg : string) (call : World -> (error + A) * World) : M World A :=
  fun w =>
    match call w with
    | (inl err, w') => (inl (wrapError msg err), w')
    | (inr a, w') => (inr a, w')
    end.

Section Validator.
  Context `{Identifiers} {World : Type} `{!AccessAPI World} `{Texts}.

(** var first uint64 = 0 *)
Definition first : N := 0.

Definition Block (rosBlockID : identifier.Block) :
    World -> (N * Identifier * option error) * World :=
  fun w =>
    let steps : M World (N * Identifier) :=
      if bool_decide (Index rosBlockID = None ∧ Hash rosBlockID = EmptyString) then
        last ← try "could not retrieve last" (GetLatestBlockHeader true);
        mret (Height last, ID last)
      else
        _ ← (if bool_decide (Hash rosBlockID ≠ EmptyString) then
               match HexStringToIdentifier (Hash rosBlockID) with
               | (_, Some _) =>
                   fail (InvalidBlock (NewDescription blockInvalid
                     [WithString "block_hash" (Hash rosBlockID)]))
               | (_, None) => mret tt
               end
             else mret tt);
        _ ← match Index rosBlockID with
            | Some index =>
                if index <? first then
                  fail (InvalidBlock (NewDescription blockTooLow
                    [WithUint64 "block_index" index; WithUint64 "first_index" first]))
                else
                  last ← try "could not get last" (GetLatestBlockHeader true);
                  if Height last <? index then
                    fail (UnknownBlock index (Hash rosBlockID)
                      (NewDescription blockTooHigh [WithUint64 "last_index" (Height last)]))
                  else mret tt
            | None => mret tt
            end;
        index ← match Index rosBlockID with
                | None =>
                    height ← try "could not get height for block"
                               (GetBlockHeaderByID (HexToID (Hash rosBlockID)));
                    mret (Height height)
                | Some index => mret index
                end;
        header ← try "could not get header" (GetBlockHeaderByHeight index);
        if bool_decide (Hash rosBlockID ≠ EmptyString ∧ Hash rosBlockID ≠ Hex (ID header)) then
          fail (InvalidBlock (NewDescription blockMismatch
            [WithUint64 "block_index" index;
             WithString "block_hash" (Hash rosBlockID);
             WithString "want_hash" (Hex (ID header))]))
        else
          match HexStringToIdentifier (Hex (ID header)) with
          | (_, Some err) => fail (wrapError "could not convert to identifier" err)
          | (identifier, None) => mret (Height header, identifier)
          end
    in
    match steps w with
    | (inl err, w') => ((0, ZeroID, Some err), w')
    | (inr (height, blockID), w') => ((height, blockID, None), w')
    end.

(** CompleteBlockID verifies that both index and hash are populated. *)
Definition CompleteBlockID (rosBlockID : identifier.Block) : option error :=
  if bool_decide (Index rosBlockID = None ∨ Hash rosBlockID = EmptyString)
  then Some (IncompleteBlock (NewDescription blockNotFull []))
  else None.

End Validator.

End validator.

(** ** Package dps: chain parameters *)
Module dps.
  Import flow.

(** dps.Token: symbol, contract address, resource type name and the
    capability path of the balance. *)
Record Token := {
  Symbol : string;
  Address : flow.Address;
  Type_ : string;
  Balance : string;
}.

(** dps.Params: chain identifier, the addresses of the fungible-token
    standard and of the staking table, and the token registry. *)
Record Params := {
  ChainID : flow.ChainID;
  FungibleToken : flow.Address;
  StakingTable : flow.Address;
  Tokens : gmap string Token;
}.

End dps.

(** ** Package text/template, as far as the scripts use it

The templates of the package are text with actions that print one
field chain, such as [{{.Token.Address}}].  A parsed template is the
list of its text and field nodes; any other action is refused by this
[Parse]. *)
Module template.

Inductive Node :=
| TextNode (Text : string)
| FieldNode (Ident : list string).

#[global] Instance Node_eq_dec : EqDecision Node.
Proof. solve_decision. Defined.

(** What executing a template needs of its data: the printed value of a
    field chain, if the data has that field. *)
Abbreviation Data := (list string -> option string) (only parsing).

Definition isSpace (c : ascii) : bool :=
  let n := N_of_ascii c in
  (n =? 32) || (n =? 9) || (n =? 13) || (n =? 10).

Definition isAlphaNumeric (c : ascii) : bool :=
  let n := N_of_ascii c in
  (n =? 95) || ((48 <=? n) && (n <=? 57))
  || ((65 <=? n) && (n <=? 90)) || ((97 <=? n) && (n <=? 122)).

Fixpoint trimLeft (s : string) : string :=
  match s with
  | String c rest => if isSpace c then trimLeft rest else s
  | EmptyString => s
  end.

Fixpoint trimRight (s : string) : string :=
  match s with
  | String c rest =>
      match trimRight rest with
      | EmptyString => if isSpace c then EmptyString else String c EmptyString
      | rest' => String c rest'
      end
  | EmptyString => s
  end.

(** The pieces of [s] between dots. *)
Fixpoint splitDots (s : string) : list string :=
  match s with
  | EmptyString => [EmptyString]
  | String c rest =>
      if Ascii.eqb c "."%char then EmptyString :: splitDots rest
      else match splitDots rest with
           | piece :: pieces => String c piece :: pieces
           | [] => [String c EmptyString]
           end
  end.

Fixpoint allChars (p : ascii -> bool) (s : string) : bool :=
  match s with
  | EmptyString => true
  | String c rest => p c && allChars p rest
  end.

Definition isIdentifier (s : string) : bool :=
  match s with
  | EmptyString => false
  | _ => allChars isAlphaNumeric s
  end.

(** The field chain an action body spells: [.A.B] is [A; B]. *)
Definition parseField (body : string) : option (list string) :=
  match trimRight (trimLeft body) with
  | String "." chain =>
      let idents := splitDots chain in
      if forallb isIdentifier idents then Some idents else None
  | _ => None
  end.

(** The lexer: [lex s inAction] reads [s] and returns the segment it is
    in (text, or the body of an action when [inAction]), the segments
    after it ([inl] text, [inr] action body) and whether an action was
    left open. *)
Fixpoint lex (s : string) (inAction : bool) : string * list (string + string) * bool :=
  match s with
  | EmptyString => (EmptyString, [], inAction)
  | String c rest =>
      let continue :=
        let '(segment, items, unclosed) := lex rest inAction in
        (String c segment, items, unclosed) in
      match rest with
      | String c' rest' =>
          if negb inAction && Ascii.eqb c "{"%char && Ascii.eqb c' "{"%char then
            let '(body, items, unclosed) := lex rest' true in
            (EmptyString, inr body :: items, unclosed)
          else if inAction && Ascii.eqb c "}"%char && Ascii.eqb c' "}"%char then
            let '(text, items, unclosed) := lex rest' false in
            (EmptyString, inl text :: items, unclosed)
          else continue
      | EmptyString => continue
      end
  end.

Fixpoint parseItems (items : list (string + string)) : list Node * option error :=
  match items with
  | [] => ([], None)
  | inl text :: rest =>
      match parseItems rest with
      | (nodes, None) =>
          (match text with EmptyString => nodes | _ => TextNode text :: nodes end, None)
      | (_, Some err) => ([], Some err)
      end
  | inr body :: rest =>
      match parseField body with
      | None => ([], Some (errorString ("unexpected action " +:+ body)))
      | Some idents =>
          match parseItems rest with
          | (nodes, None) => (FieldNode idents :: nodes, None)
          | (_, Some err) => ([], Some err)
          end
      end
  end.

(** template.New(name).Parse(text); the name plays no part. *)
Definition Parse (text : string) : list Node * option error :=
  let '(head, items, unclosed) := lex text false in
  if unclosed then ([], Some (errorString "unclosed action"))
  else parseItems (inl head :: items).

(** template.Must: panic when the template does not parse. *)
Definition Must (parsed : list Node * option error) : outcome (list Node) :=
  match parsed with
  | (t, None) => Done t
  | (_, Some err) => Panic (MustFailed err)
  end.

(** Template.Execute(buf, data): write the nodes to the buffer in
    order; a field the data does not have stops the execution. *)
Fixpoint Execute (t : list Node) (buf : string) (data : Data) : string * option error :=
  match t with
  | [] => (buf, None)
  | TextNode text :: rest => Execute rest (buf +:+ text) data
  | FieldNode idents :: rest =>
      match data idents with
      | Some printed => Execute rest (buf +:+ printed) data
      | None => (buf, Some (errorString "can't evaluate field"))
      end
  end.

End template.

(** ** Package scripts *)
Module scripts.
  Import flow template.

(** Characters and layout the script texts need. *)
Definition dq : string := String (ascii_of_N 34) EmptyString.

Definition tab : string := String (ascii_of_N 9) EmptyString.

Definition newline : string := String (ascii_of_N 10) EmptyString.

Fixpoint tabs (n : nat) : string :=
  match n with
  | O => EmptyString
  | S n' => tab +:+ tabs n'
  end.

(** The lines of a raw string literal, joined by newlines. *)
Fixpoint unlines (lines : list string) : string :=
  match lines with
  | [] => EmptyString
  | [line] => line
  | line :: rest => line +:+ newline +:+ unlines rest
  end.

(** get_staked_balance.go *)
Definition getStakedBalance : string := unlines
  [ ""
  ; "// This script reads the balance field of an account's FlowToken Balance"
  ; "// and total balance of all staked nodes with their delegators"
  ; ""
  ; "import FungibleToken from 0x{{.Params.FungibleToken}}"
  ; "import {{.Token.Type}} from 0x{{.Token.Address}}"
  ; "import FlowIDTableStaking from 0x{{.Params.StakingTable}}"
  ; ""
  ; ""
  ; "pub fun main(account: Address): UFix64 {"
  ; ""
  ; "    let vaultRef = getAccount(account)"
  ; "        .getCapability({{.Token.Balance}})"
  ; "        .borrow<&{{.Token.Type}}.Vault{FungibleToken.Balance}>()"
  ; "        ?? panic(" +:+ dq +:+ "Could not borrow Balance reference to the Vault" +:+ dq +:+ ")"
  ; ""
  ; tabs 1 +:+ "let vaultBalance = vaultRef.balance"
  ; ""
  ; tabs 1 +:+ "// Sum up all tokens from all delegators and all stake"
  ; tabs 1 +:+ "let allNodeIDs = FlowIDTableStaking.getNodeIDs()"
  ; ""
  ; "    var totalTokens: UFix64 = 0.0"
  ; ""
  ; "    for nodeID in allNodeIDs {"
  ; "        let nodeInfo = FlowIDTableStaking.NodeInfo(nodeID: nodeID)"
  ; "        let delegatorsIDs = nodeInfo.delegators"
  ; ""
  ; "        totalTokens = totalTokens + nodeInfo.totalTokensInRecord()"
  ; ""
  ; "        for delegatorID in delegatorsIDs {"
  ; "            let delegatorInfo = FlowIDTableStaking.DelegatorInfo(nodeID: nodeID, delegatorID: delegatorID)"
  ; ""
  ; ""
  ; "            totalTokens = totalTokens + delegatorInfo.totalTokensInRecord()"
  ; "        }"
  ; "    }"
  ; ""
  ; "    return vaultBalance + stakedBalance"
  ; "}"
  ; ""
  ].

(** The two override scripts of mainnetContracts. *)
Definition contract_c6c77b9f5c7a378f : string := unlines
  [ "// This script reads the Flow balance of FlowSwapPair contract as well as standard Flow vault balance"
  ; tabs 2 +:+ "import FungibleToken from 0x{{.Params.FungibleToken}}"
  ; tabs 2 +:+ "import {{.Token.Type}} from 0x{{.Token.Address}}"
  ; tabs 2 +:+ "import FlowSwapPair from 0xc6c77b9f5c7a378f //parametrize address - does it exist on other chains?"
  ; tabs 2 +:+ "pub fun main(account: Address): UFix64 {"
  ; tabs 3 +:+ "let vaultRef = getAccount(account)"
  ; tabs 4 +:+ ".getCapability({{.Token.Balance}})"
  ; tabs 4 +:+ ".borrow<&{{.Token.Type}}.Vault{FungibleToken.Balance}>()"
  ; tabs 4 +:+ "?? panic(" +:+ dq +:+ "Could not borrow Balance reference to the Vault" +:+ dq +:+ ")"
  ; tabs 2 +:+ ""
  ; tabs 3 +:+ "return vaultRef.balance + FlowSwapPair.getPoolAmounts().token1Amount"
  ; tabs 2 +:+ "}"
  ; tabs 1 +:+ ""
  ].

Definition contract_d796ff17107bbff6 : string := unlines
  [ ""
  ; tabs 2 +:+ "import FungibleToken from 0x{{.Params.FungibleToken}}"
  ; tabs 2 +:+ "import {{.Token.Type}} from 0x{{.Token.Address}}"
  ; tabs 2 +:+ "import Versus from 0xd796ff17107bbff6"
  ; tabs 2 +:+ ""
  ; tabs 2 +:+ "pub fun main(account: Address): UFix64 {"
  ; tabs 2 +:+ ""
  ; tabs 3 +:+ "// default flow token"
  ; tabs 3 +:+ "let vaultRef = getAccount(account)"
  ; tabs 4 +:+ ".getCapability({{.Token.Balance}})"
  ; tabs 4 +:+ ".borrow<&{{.Token.Type}}.Vault{FungibleToken.Balance}>()"
  ; tabs 4 +:+ "?? panic(" +:+ dq +:+ "Could not borrow Balance reference to the Vault" +:+ dq +:+ ")"
  ; tabs 2 +:+ ""
  ; tabs 2 +:+ ""
  ; tabs 3 +:+ "// sum of all public drops"
  ; tabs 3 +:+ "let publicDrop = getAccount(0xd796ff17107bbff6)"
  ; tabs 4 +:+ ".getCapability(Versus.CollectionPublicPath)"
  ; tabs 4 +:+ ".borrow<&{Versus.PublicDrop}>()"
  ; tabs 4 +:+ "?? panic(" +:+ dq +:+ "Could not borrow Balance reference to the PublicDrop" +:+ dq +:+ ")"
  ; tabs 2 +:+ ""
  ; tabs 3 +:+ "let allStatuses = publicDrop.getAllStatuses()"
  ; tabs 2 +:+ ""
  ; tabs 3 +:+ "var totalFlow = 0.0"
  ; tabs 2 +:+ ""
  ; tabs 3 +:+ "for dropId in allStatuses.keys {"
  ; tabs 4 +:+ "let dropStatus = allStatuses[dropId]"
  ; tabs 4 +:+ "totalFlow = totalFlow + (dropStatus?.uniquePrice ?? 0.0) + (dropStatus?.editionPrice ?? 0.0)"
  ; tabs 3 +:+ "}"
  ; tabs 2 +:+ ""
  ; tabs 3 +:+ "return totalFlow + vaultRef.balance"
  ; tabs 2 +:+ "}"
  ; tabs 1 +:+ ""
  ].

(** The override table of the package, in the order it is written. *)
Definition mainnetContracts : list (string * string) :=
  [ ("c6c77b9f5c7a378f", contract_c6c77b9f5c7a378f)
  ; ("d796ff17107bbff6", contract_d796ff17107bbff6) ].

(** The five other built-in templates of the package (constants
    getBalance, transferTokens, tokensDeposited, tokensWithdrawn and
    delegatorRewardsPaid); their declarations are not part of this
    development, so they are parameters. *)
Class Builtins := {
  getBalance : string;
  transferTokens : string;
  tokensDeposited : string;
  tokensWithdrawn : string;
  delegatorRewardsPaid : string;
}.

(** Generator dynamically generates Cadence scripts from templates. *)
Record Generator := {
  g_params : dps.Params;
  g_getBalance : list Node;
  g_getStakedBalance : list Node;
  g_transferTokens : list Node;
  g_tokensDeposited : list Node;
  g_tokensWithdrawn : list Node;
  g_delegatorRewardsPaid : list Node;
  g_custom : gmap flow.ChainID (gmap flow.Address (list Node));
}.

#[global] Instance outcome_ret : MRet outcome := @Done.

#[global] Instance outcome_bind : MBind outcome :=
  fun A B k m => match m with Done a => k a | Panic p => Panic p end.

(** The loop of NewGenerator over mainnetContracts. *)
Fixpoint compileContracts (contracts : list (string * string))
    (mainnetCustom : gmap flow.Address (list Node)) : outcome (gmap flow.Address (list Node)) :=
  match contracts with
  | [] => Done mainnetCustom
  | (address, contract) :: rest =>
      t ← Must (Parse contract);
      compileContracts rest (<[HexToAddress address := t]> mainnetCustom)
  end.

(** NewGenerator returns a Generator using the given parameters. *)
Definition NewGenerator `{Builtins} (params : dps.Params) : outcome Generator :=
  getBalance' ← Must (Parse getBalance);
  getStakedBalance' ← Must (Parse getStakedBalance);
  transferTokens' ← Must (Parse transferTokens);
  tokensDeposited' ← Must (Parse tokensDeposited);
  tokensWithdrawn' ← Must (Parse tokensWithdrawn);
  delegatorRewardsPaid' ← Must (Parse delegatorRewardsPaid);
  mainnetCustom ← compileContracts mainnetContracts ∅;
  mret {| g_params := params;
          g_getBalance := getBalance';
          g_getStakedBalance := getStakedBalance';
          g_transferTokens := transferTokens';
          g_tokensDeposited := tokensDeposited';
          g_tokensWithdrawn := tokensWithdrawn';
          g_delegatorRewardsPaid := delegatorRewardsPaid';
          g_custom := <[Mainnet := mainnetCustom]> ∅ |}.

(** The data a template is executed with: struct { Params; Token }. *)
Definition data (params : dps.Params) (token : dps.Token) : Data :=
  fun idents =>
    if decide (idents = ["Params"; "ChainID"]) then Some (dps.ChainID params)
    else if decide (idents = ["Params"; "FungibleToken"])
      then Some (AddressString (dps.FungibleToken params))
    else if decide (idents = ["Params"; "StakingTable"])
      then Some (AddressString (dps.StakingTable params))
    else if decide (idents = ["Token"; "Symbol"]) then Some (dps.Symbol token)
    else if decide (idents = ["Token"; "Address"])
      then Some (AddressString (dps.Address token))
    else if decide (idents = ["Token"; "Type"]) then Some (dps.Type_ token)
    else if decide (idents = ["Token"; "Balance"]) then Some (dps.Balance token)
    else None.

Definition compile (g : Generator) (template : list Node) (symbol : string) :
    string * option error :=
  match dps.Tokens (g_params g) !! symbol with
  | None =>
      (EmptyString, Some (errorString ("invalid token symbol (" +:+ symbol +:+ ")")))
  | Some token =>
      match Execute template EmptyString (data (g_params g) token) with
      | (_, Some err) => (EmptyString, Some (wrapError "could not execute template" err))
      | (buf, None) => (buf, None)
      end
  end.

(** g.bytes: the rendered script as []byte; a nil slice is the empty string. *)
Definition bytes (g : Generator) (template : list Node) (symbol : string) :
    string * option error :=
  match compile g template symbol with
  | (_, Some err) => (EmptyString, Some (wrapError "could not compile template" err))
  | (buf, None) => (buf, None)
  end.

(** g.string: the rendered script as a string. *)
Definition string' (g : Generator) (template : list Node) (symbol : string) :
    string * option error :=
  match compile g template symbol with
  | (_, Some err) => (EmptyString, Some (wrapError "could not compile template" err))
  | (buf, None) => (buf, None)
  end.

(** GetBalance generates a Cadence script to retrieve the balance of an account. *)
Definition GetBalance (g : Generator) (symbol : string) : string * option error :=
  bytes g (g_getBalance g) symbol.

Definition GetStakedBalance (g : Generator) (symbol : string) : string * option error :=
  bytes g (g_getStakedBalance g) symbol.

Definition TransferTokens (g : Generator) (symbol : string) : string * option error :=
  bytes g (g_transferTokens g) symbol.

Definition TokensDeposited (g : Generator) (symbol : string) : string * option error :=
  string' g (g_tokensDeposited g) symbol.

Definition TokensWithdrawn (g : Generator) (symbol : string) : string * option error :=
  string' g (g_tokensWithdrawn g) symbol.

Definition DelegatorRewardsPaid (g : Generator) (symbol : string) : string * option error :=
  string' g (g_delegatorRewardsPaid g) symbol.

Definition Custom (g : Generator) (symbol : string) (chainID : flow.ChainID)
    (address : flow.Address) : bool * string * option error :=
  match g_custom g !! chainID with
  | None => (false, EmptyString, None)
  | Some chainCustom =>
      match chainCustom !! address with
      | None => (false, EmptyString, None)
      | Some template =>
          let '(bytes, err) := bytes g template symbol in
          (true, bytes, err)
      end
  end.

End scripts.

(** * Specification vocabulary *)

(** ** Decimal numerals *)
Module numeral.

Definition isDigit (c : ascii) : bool :=
  (48 <=? N_of_ascii c) && (N_of_ascii c <=? 57).

Definition allDigits (s : string) : bool := template.allChars isDigit s.

(** The number a string of decimal digits spells, read left to right
    from [acc]. *)
Fixpoint decimalFrom (acc : N) (s : string) : N :=
  match s with
  | EmptyString => acc
  | String c rest => decimalFrom (10 * acc + (N_of_ascii c - 48)) rest
  end.

Definition decimalValue (s : string) : N := decimalFrom 0 s.

(** A numeral with no redundant leading zero. *)
Definition canonical (s : string) : bool :=
  match s with
  | EmptyString => false
  | String c EmptyString => true
  | String c _ => negb (Ascii.eqb c "0"%char)
  end.

Fixpoint zeros (n : nat) : string :=
  match n with
  | O => EmptyString
  | S n' => String "0"%char (zeros n')
  end.

Definition padLeft (width : nat) (s : string) : string :=
  zeros (width - String.length s) +:+ s.

(** The spec's valid input of the converter: an integer part of at least
    one digit, a dot, exactly 8 fractional digits, and a value that fits
    the 64-bit fixed-point type. *)
Definition validUFix64 (s : string) : Prop :=
  exists ip fp,
    s = ip +:+ "." +:+ fp
    /\ ip <> EmptyString
    /\ allDigits ip = true
    /\ allDigits fp = true
    /\ String.length fp = cadence.Fix64Scale
    /\ decimalValue ip * cadence.Fix64Factor + decimalValue fp <= cadence.maxUFix64.

(** Modelled from the spec: formatting minor units back to the 8-decimal
    form (section 8, the round trip of the converter); the sources have
    no such function.  The integer part is the quotient by 10^8, the
    fraction the remainder on 8 digits. *)
Definition FormatUFix64 (minor : string) : option string :=
  match NilZero.uint_of_string minor with
  | None => None
  | Some d =>
      let v := N.of_uint d in
      Some (strconv.FormatUint (v / cadence.Fix64Factor) +:+ "." +:+
            padLeft cadence.Fix64Scale (strconv.FormatUint (v mod cadence.Fix64Factor)))
  end.

End numeral.

(** ** Shapes of normalised values *)
Module shape.
  Import cadence retriever.

(** The invariant of the values the execution layer hands over: a
    struct carries its type, and no more field values than the type
    declares names; so do the values below it.  Dictionary keys are only
    printed, never flattened. *)
Fixpoint wellTyped (v : Value) : bool :=
  match v with
  | Struct structType fields =>
      match structType with
      | None => false
      | Some ty => (length fields <=? length (Fields ty))%nat && forallb wellTyped fields
      end
  | Dictionary pairs => forallb (fun item => wellTyped item.2) pairs
  | Array values => forallb wellTyped values
  | Scalar _ => true
  end.

(** The text a scalar is flattened to: unquoted, or raw when unquoting
    fails. *)
Definition scalarText `{Text} (v : Value) : string :=
  match Unquote (ValueString v) with
  | (result, None) => result
  | (_, Some _) => ValueString v
  end.

(** Follows the spec's words (section 4.3): a record becomes a mapping
    from field name to flattened field value, a mapping a mapping keyed
    by the key's text, an array the list of its flattened elements in
    order, a scalar its text. *)
Inductive Shape `{Text} : Value -> Flat -> Prop :=
| Shape_record ty fields entries :
    (forall j subField, fields !! j = Some subField ->
       exists name, Fields ty !! j = Some name /\ is_Some (entries !! Identifier name)) ->
    (forall key t, entries !! key = Some t ->
       exists j name subField,
         Fields ty !! j = Some name /\ Identifier name = key
         /\ fields !! j = Some subField /\ Shape subField t) ->
    Shape (Struct (Some ty) fields) (FMap entries)
| Shape_mapping pairs entries :
    (forall k v, (k, v) ∈ pairs -> is_Some (entries !! ValueString k)) ->
    (forall key t, entries !! key = Some t ->
       exists k v, (k, v) ∈ pairs /\ ValueString k = key /\ Shape v t) ->
    Shape (Dictionary pairs) (FMap entries)
| Shape_list values items :
    Forall2 Shape values items ->
    Shape (Array values) (FList items)
| Shape_scalar tag :
    Shape (Scalar tag) (FString (scalarText (Scalar tag))).

End shape.

(** ** Rendering operations *)
Module rendering.
  Import flow template scripts.

(** [needle] occurs in [hay]. *)
Definition contains (needle hay : string) : Prop :=
  exists before after, hay = before +:+ needle +:+ after.

Fixpoint isPrefix (p s : string) : bool :=
  match p, s with
  | EmptyString, _ => true
  | String c p', String d s' => Ascii.eqb c d && isPrefix p' s'
  | String _ _, EmptyString => false
  end.

(** How many positions of [hay] start an occurrence of [needle]. *)
Fixpoint occurrences (needle hay : string) : nat :=
  match hay with
  | EmptyString => O
  | String _ rest =>
      ((if isPrefix needle hay then 1 else 0) + occurrences needle rest)%nat
  end.

(** The six template operations of the generator. *)
Inductive operation :=
| opGetBalance
| opGetStakedBalance
| opTransferTokens
| opTokensDeposited
| opTokensWithdrawn
| opDelegatorRewardsPaid.

Definition render (op : operation) (g : Generator) (symbol : string) : string * option error :=
  match op with
  | opGetBalance => GetBalance g symbol
  | opGetStakedBalance => GetStakedBalance g symbol
  | opTransferTokens => TransferTokens g symbol
  | opTokensDeposited => TokensDeposited g symbol
  | opTokensWithdrawn => TokensWithdrawn g symbol
  | opDelegatorRewardsPaid => DelegatorRewardsPaid g symbol
  end.

Definition templateOf (op : operation) (g : Generator) : list Node :=
  match op with
  | opGetBalance => g_getBalance g
  | opGetStakedBalance => g_getStakedBalance g
  | opTransferTokens => g_transferTokens g
  | opTokensDeposited => g_tokensDeposited g
  | opTokensWithdrawn => g_tokensWithdrawn g
  | opDelegatorRewardsPaid => g_delegatorRewardsPaid g
  end.

(** The field chains the data of [scripts.compile] can print. *)
Definition knownFields : list (list string) :=
  [ ["Params"; "ChainID"]; ["Params"; "FungibleToken"]; ["Params"; "StakingTable"];
    ["Token"; "Symbol"]; ["Token"; "Address"]; ["Token"; "Type"]; ["Token"; "Balance"] ].

(** A template whose actions all print known fields. *)
Definition wellScoped (t : list Node) : bool :=
  forallb (fun node =>
             match node with
             | TextNode _ => true
             | FieldNode idents => bool_decide (idents ∈ knownFields)
             end) t.

(** The error of every operation on a symbol the registry lacks. *)
Definition invalidSymbol (symbol : string) : error :=
  wrapError "could not compile template"
    (errorString ("invalid token symbol (" +:+ symbol +:+ ")")).

(** The last statement of the staked-balance script. *)
Definition stakedReturn : string :=
  "    return vaultBalance + stakedBalance" +:+ newline +:+ "}" +:+ newline.

End rendering.

(** * Fixtures: concrete collaborators for the examples *)
Module fixture.
  Import cadence flow.

(** strconv.Unquote on a double-quoted literal without escape sequences;
    this stand-in reports every other text as a syntax error. *)
Definition plain (c : ascii) : bool :=
  let n := N_of_ascii c in negb ((n =? 34) || (n =? 92) || (n =? 10))%N.

Fixpoint unquoteBody (s : string) : option string :=
  match s with
  | EmptyString => None
  | String c EmptyString => if (N_of_ascii c =? 34)%N then Some EmptyString else None
  | String c rest =>
      if plain c then
        match unquoteBody rest with
        | Some body => Some (String c body)
        | None => None
        end
      else None
  end.

Definition unquote (s : string) : string * option error :=
  match s with
  | String c rest =>
      if (N_of_ascii c =? 34)%N then
        match unquoteBody rest with
        | Some body => (body, None)
        | None => (EmptyString, Some (errorString "invalid syntax"))
        end
      else (EmptyString, Some (errorString "invalid syntax"))
  | EmptyString => (EmptyString, Some (errorString "invalid syntax"))
  end.

(** A scalar prints as its tag; the examples print no composite. *)
#[export] Instance text : Text := {|
  ValueString v := match v with Scalar tag => tag | _ => "<composite>" end;
  Unquote := unquote;
|}.

(** A validator record: a name, a list of delegators, a table. *)
Definition stakingInfo : Value :=
  Struct (Some {| cadence.Fields := [ {| cadence.Identifier := "id" |};
                                     {| cadence.Identifier := "delegators" |};
                                     {| cadence.Identifier := "tokens" |} ] |})
    [ Scalar (scripts.dq +:+ "node-1" +:+ scripts.dq);
      Array [Scalar "7"; Scalar "9"];
      Dictionary [(Scalar "staked", Scalar "1.00000000")] ].

Fixpoint repeatChar (n : nat) (c : ascii) : string :=
  match n with
  | O => EmptyString
  | S n' => String c (repeatChar n' c)
  end.

(** Identifiers kept as their 64 hexadecimal digits. *)
#[export] Instance identifiers : Identifiers := {|
  Identifier := string;
  ZeroID := repeatChar 64 "0";
  HexStringToIdentifier s :=
    if (String.length s =? 64)%nat
       && template.allChars (fun c => bool_decide (is_Some (hexDigit c))) s
    then (s, None)
    else (repeatChar 64 "0", Some (errorString "malformed input"));
  HexToID s := s;
  Hex id := id;
|}.

(** A chain that stands still: the headers known to the access node. *)
#[export] Instance api : AccessAPI (list BlockHeader) := {|
  GetLatestBlockHeader _ chain :=
    (match last chain with
     | Some header => inr header
     | None => inl (errorString "no block")
     end, chain);
  GetBlockHeaderByID id chain :=
    (match List.find (fun header => bool_decide (ID header = id)) chain with
     | Some header => inr header
     | None => inl (errorString "not found")
     end, chain);
  GetBlockHeaderByHeight height chain :=
    (match List.find (fun header => (Height header =? height)%N) chain with
     | Some header => inr header
     | None => inl (errorString "not found")
     end, chain);
|}.

#[export] Instance texts : validator.Texts := {|
  validator.blockInvalid := "block hash is not a valid hex-encoded string";
  validator.blockNotFull := "block identifier needs both fields";
  validator.blockTooLow := "block index is below first indexed height";
  validator.blockTooHigh := "block index is above last indexed height";
  validator.blockMismatch := "block hash does not match known hash for height";
|}.

(** Six blocks, heights 0 to 5. *)
Definition chain : list BlockHeader :=
  [ {| ID := repeatChar 64 "a"; Height := 0 |};
    {| ID := repeatChar 64 "b"; Height := 1 |};
    {| ID := repeatChar 64 "c"; Height := 2 |};
    {| ID := repeatChar 64 "d"; Height := 3 |};
    {| ID := repeatChar 64 "e"; Height := 4 |};
    {| ID := repeatChar 64 "f"; Height := 5 |} ].

(** Sample texts for the five parameter templates. *)
#[export] Instance builtins : scripts.Builtins := {|
  scripts.getBalance :=
    "import {{.Token.Type}} from 0x{{.Token.Address}} // {{.Token.Balance}}";
  scripts.transferTokens := "import FungibleToken from 0x{{.Params.FungibleToken}}";
  scripts.tokensDeposited := "A.{{.Token.Address}}.{{.Token.Type}}.TokensDeposited";
  scripts.tokensWithdrawn := "A.{{.Token.Address}}.{{.Token.Type}}.TokensWithdrawn";
  scripts.delegatorRewardsPaid := "A.{{.Params.StakingTable}}.FlowIDTableStaking.DelegatorRewardsPaid";
|}.

Definition flowToken : dps.Token :=
  {| dps.Symbol := "FLOW";
     dps.Address := HexToAddress "1654653399040a61";
     dps.Type_ := "FlowToken";
     dps.Balance := "/public/flowTokenBalance" |}.

Definition params : dps.Params :=
  {| dps.ChainID := Mainnet;
     dps.FungibleToken := HexToAddress "f233dcee88fe0abe";
     dps.StakingTable := HexToAddress "8624b52f9ddcd04a";
     dps.Tokens := {[ "FLOW" := flowToken ]} |}.

End fixture.

(** ** Package retriever: the identifiers it hands back *)
Module blockid.
Import identifier flow.

(** The String method of flow.Identifier, which rosettaBlockID prints the
    block ID with. *)
Class IdentifierText `{Identifiers} := {
  IdentifierString : Identifier -> string;
}.

Definition rosettaBlockID `{IdentifierText} (height : N) (blockID : Identifier) :
    identifier.Block :=
  {| Index := Some height; Hash := IdentifierString blockID |}.

End blockid.

(** ** Failures of Validator.Block *)
Module blockfailure.
Import failure identifier validator.

(** The contexts Block wraps a failure of the access client or of the
    identifier codec with. *)
Definition contexts : list string :=
  [ "could not retrieve last"; "could not get last"; "could not get height for block";
    "could not get header"; "could not convert to identifier" ].

(** The failures Block can return for [rosBlockID]. *)
Definition expected `{Texts} (rosBlockID : identifier.Block) (err : error) : Prop :=
  match err with
  | InvalidBlock d =>
      (Text d = blockInvalid /\ Fields d = [WithString "block_hash" (Hash rosBlockID)])
      \/ (exists index, Text d = blockTooLow /\ Index rosBlockID = Some index)
      \/ (exists index want,
            Text d = blockMismatch
            /\ Fields d = [WithUint64 "block_index" index;
                           WithString "block_hash" (Hash rosBlockID);
                           WithString "want_hash" want])
  | UnknownBlock index hash d =>
      Index rosBlockID = Some index /\ hash = Hash rosBlockID /\ Text d = blockTooHigh
  | wrapError msg _ => msg ∈ contexts
  | errorString _ | IncompleteBlock _ => False
  end.

End blockfailure.

(** ** Fixtures for the identifiers handed back *)
Module fixtures.
Import flow blockid fixture.

(** An identifier prints as its 64 hexadecimal digits. *)
#[export] Instance identifierText : IdentifierText := {|
  IdentifierString id := id;
|}.

End fixtures.

(** ** Mappings built by successive assignment *)
Module assignments.
Import retriever.

(** result[key] = value for every item in order, as the loops of flatten
    do: a later item with the same key replaces an earlier one. *)
Definition insertAll (items : list (string * Flat)) (result : gmap string Flat) :
    gmap string Flat :=
  foldl (fun m item => <[item.1 := item.2]> m) result items.

End assignments.

(** ** The staking-node script (Cadence)

    The script builds a StakingNodeInfo for a node ID from the
    FlowIDTableStaking contract.  The contract is a collaborator: its
    record initializers and totalTokensInRecord abort when they cannot
    answer ([None]).  A UFix64 is the 64-bit integer it stores, and its
    addition aborts on overflow. *)
Module staking.

Class FlowIDTableStaking := {
  NodeRecord : Type;
  DelegatorRecord : Type;
  NodeInfo : string -> option NodeRecord;
  DelegatorInfo : string -> N -> option DelegatorRecord;
  nodeID : NodeRecord -> string;
  nodeDelegators : NodeRecord -> list N;
  nodeTotalTokensInRecord : NodeRecord -> option N;
  delegatorTotalTokensInRecord : DelegatorRecord -> option N;
}.

(** a + b on UFix64 *)
Definition plus (a b : N) : option N :=
  if cadence.maxUFix64 <? a + b then None else Some (a + b).

Record StakingNodeInfo `{FlowIDTableStaking} := {
  stakedBalance : N;
  node : NodeRecord;
  delegators : list DelegatorRecord;
}.

(** for delegatorID in self.node.delegators { ... } *)
Fixpoint collect `{FlowIDTableStaking} (id : string) (delegatorIDs : list N)
    (delegators : list DelegatorRecord) (stakedBalance : N) :
    option (list DelegatorRecord * N) :=
  match delegatorIDs with
  | [] => Some (delegators, stakedBalance)
  | delegatorID :: rest =>
      delegatorInfo ← DelegatorInfo id delegatorID;
      total ← delegatorTotalTokensInRecord delegatorInfo;
      stakedBalance' ← plus stakedBalance total;
      collect id rest (delegators ++ [delegatorInfo]) stakedBalance'
  end.

(** init (nodeID: String) *)
Definition init `{FlowIDTableStaking} (id : string) : option StakingNodeInfo :=
  node ← NodeInfo id;
  stakedBalance ← nodeTotalTokensInRecord node;
  '(delegators, stakedBalance') ← collect (nodeID node) (nodeDelegators node) [] stakedBalance;
  Some {| stakedBalance := stakedBalance'; node := node; delegators := delegators |}.

(** pub fun main(nodeID: String): StakingNodeInfo *)
Definition main `{FlowIDTableStaking} (id : string) : option StakingNodeInfo := init id.

(** A table of three nodes for the examples: a node is its ID, its own
    tokens and its delegators' tokens by delegator ID. *)
Definition table : list (string * (N * list (N * N))) :=
  [ ("node-1", (500, [(1, 20); (2, 30)])); ("node-2", (7, []));
    ("node-3", (cadence.maxUFix64, [(1, 1)])) ].

#[export] Instance sample : FlowIDTableStaking := {|
  NodeRecord := string * (N * list (N * N));
  DelegatorRecord := N * N;
  NodeInfo id := List.find (fun record => String.eqb record.1 id) table;
  DelegatorInfo id delegatorID :=
    record ← List.find (fun record => String.eqb record.1 id) table;
    List.find (fun delegator => (delegator.1 =? delegatorID)%N) record.2.2;
  nodeID record := record.1;
  nodeDelegators record := record.2.2.*1;
  nodeTotalTokensInRecord record := Some record.2.1;
  delegatorTotalTokensInRecord delegator := Some delegator.2;
|}.

(** What the script returns for node-1 of the table. *)
Definition node1 : StakingNodeInfo (H := sample) :=
  {| stakedBalance := 550;
     node := ("node-1", (500, [(1, 20); (2, 30)]));
     delegators := [(1, 20); (2, 30)] |}.

End staking.

(** ** A chain that starts above height 0 *)

Module spork.
Import flow fixture.

(** The headers an access node of a later spork knows: its first block
    is at height 50, its head at height 52. *)
Definition chain : list BlockHeader :=
  [ {| ID := repeatChar 64 "a"; Height := 50 |};
    {| ID := repeatChar 64 "b"; Height := 51 |};
    {| ID := repeatChar 64 "c"; Height := 52 |} ].

End spork.

(** ** The template constants that are not among the sources *)

Module modelled.
Import scripts.

(** Modelled from the spec: the constant getBalance, whose file is not
    among the sources.  Section 4.2 has the balance query executed with
    the chain parameters and the token descriptor (type name, address,
    balance-capability path), and section 8 has its rendering carry the
    token's address and capability path.  The text is the standard vault
    reading that get_staked_balance.go and both scripts of
    mainnetContracts share. *)
Definition getBalance : string := unlines
  [ ""
  ; "// This script reads the balance field of an account's FlowToken Balance"
  ; ""
  ; "import FungibleToken from 0x{{.Params.FungibleToken}}"
  ; "import {{.Token.Type}} from 0x{{.Token.Address}}"
  ; ""
  ; "pub fun main(account: Address): UFix64 {"
  ; ""
  ; "    let vaultRef = getAccount(account)"
  ; "        .getCapability({{.Token.Balance}})"
  ; "        .borrow<&{{.Token.Type}}.Vault{FungibleToken.Balance}>()"
  ; "        ?? panic(" +:+ dq +:+ "Could not borrow Balance reference to the Vault" +:+ dq +:+ ")"
  ; ""
  ; "    return vaultRef.balance"
  ; "}"
  ; "" ].

(** Modelled from the spec: the constant transferTokens, whose file is
    not among the sources.  Section 4.2 names a token-transfer template
    executed with the same data; only the imports every script of the
    package starts with are written out. *)
Definition transferTokens : string := unlines
  [ ""
  ; "import FungibleToken from 0x{{.Params.FungibleToken}}"
  ; "import {{.Token.Type}} from 0x{{.Token.Address}}"
  ; "" ].

(** Modelled from the spec: the constants tokensDeposited,
    tokensWithdrawn and delegatorRewardsPaid, whose files are not among
    the sources.  Section 4.2 has three event-shape templates rendered as
    strings for matching event types: the type of an event of the token
    contract, or of the staking table. *)
Definition tokensDeposited : string :=
  "A.{{.Token.Address}}.{{.Token.Type}}.TokensDeposited".

Definition tokensWithdrawn : string :=
  "A.{{.Token.Address}}.{{.Token.Type}}.TokensWithdrawn".

Definition delegatorRewardsPaid : string :=
  "A.{{.Params.StakingTable}}.FlowIDTableStaking.DelegatorRewardsPaid".

(** The five constants as the package would declare them. *)
Definition templates : Builtins := {|
  scripts.getBalance := getBalance;
  scripts.transferTokens := transferTokens;
  scripts.tokensDeposited := tokensDeposited;
  scripts.tokensWithdrawn := tokensWithdrawn;
  scripts.delegatorRewardsPaid := delegatorRewardsPaid;
|}.

End modelled.

(** * Proofs *)

(** ** Strings and decimal numerals *)

Section numeral_facts.
  Import numeral cadence.

Lemma append_cons c (s1 s2 : string) : String c s1 +:+ s2 = String c (s1 +:+ s2).
Proof. reflexivity. Qed.

Lemma append_nil_l (s : string) : EmptyString +:+ s = s.
Proof. reflexivity. Qed.

Lemma append_length (s1 s2 : string) :
  String.length (s1 +:+ s2) = (String.length s1 + String.length s2)%nat.
Proof.
  induction s1 as [|c s1 IH]; [done|]. rewrite append_cons. cbn. by rewrite IH.
Qed.

Lemma append_assoc (s1 s2 s3 : string) : (s1 +:+ s2) +:+ s3 = s1 +:+ (s2 +:+ s3).
Proof.
  induction s1 as [|c s1 IH]; [done|]. by rewrite !append_cons, IH.
Qed.

Lemma append_nil_r (s : string) : s +:+ EmptyString = s.
Proof.
  induction s as [|c s IH]; [done|]. by rewrite append_cons, IH.
Qed.

Lemma uint_of_string_cons c s d :
  NilEmpty.uint_of_string (String c s) = Some d ->
  exists d', NilEmpty.uint_of_string s = Some d' /\ uint_of_char c (Some d') = Some d.
Proof.
  simpl. destruct (NilEmpty.uint_of_string s) as [d'|]; [eauto | discriminate].
Qed.

(** The ten shapes of a parsed digit. *)
Ltac digit_cases H :=
  apply uint_of_char_spec in H;
  destruct H as [[-> ->]|[[-> ->]|[[-> ->]|[[-> ->]|[[-> ->]|
                [[-> ->]|[[-> ->]|[[-> ->]|[[-> ->]|[-> ->]]]]]]]]]].

Lemma of_uint_acc_decimalFrom s : forall d acc,
  NilEmpty.uint_of_string s = Some d ->
  Npos (Pos.of_uint_acc d acc) = decimalFrom (Npos acc) s.
Proof.
  induction s as [|c s IH]; intros d acc Hs.
  - injection Hs as <-. reflexivity.
  - apply uint_of_string_cons in Hs as (d' & Hd' & Hc).
    digit_cases Hc; cbn [Pos.of_uint_acc decimalFrom];
      rewrite (IH _ _ Hd'); f_equal; simpl; lia.
Qed.

Lemma of_uint_decimalValue s : forall d,
  NilEmpty.uint_of_string s = Some d -> N.of_uint d = decimalValue s.
Proof.
  unfold decimalValue, N.of_uint.
  induction s as [|c s IH]; intros d Hs.
  - injection Hs as <-. reflexivity.
  - apply uint_of_string_cons in Hs as (d' & Hd' & Hc).
    digit_cases Hc; cbn [Pos.of_uint decimalFrom];
      first [ apply (IH _ Hd') | apply (of_uint_acc_decimalFrom _ _ _ Hd') ].
Qed.

Lemma uint_of_string_digits s d :
  NilEmpty.uint_of_string s = Some d -> allDigits s = true.
Proof.
  revert d. induction s as [|c s IH]; intros d Hs; [reflexivity|].
  apply uint_of_string_cons in Hs as (d' & Hd' & Hc).
  unfold allDigits in *. cbn [template.allChars]. rewrite (IH _ Hd').
  digit_cases Hc; reflexivity.
Qed.

Lemma isDigit_char c :
  isDigit c = true ->
  exists d', forall d, uint_of_char c (Some d) = Some (d' d).
Proof.
  unfold isDigit. intros Hc.
  destruct c as [[|] [|] [|] [|] [|] [|] [|] [|]]; try discriminate Hc;
    eexists (fun d => _); intros d; reflexivity.
Qed.

Lemma digits_uint_of_string s :
  allDigits s = true -> exists d, NilEmpty.uint_of_string s = Some d.
Proof.
  unfold allDigits. induction s as [|c s IH]; intros Hs; [by eexists|].
  cbn [template.allChars] in Hs. apply andb_true_iff in Hs as [Hc Hs].
  destruct (IH Hs) as [d Hd]. destruct (isDigit_char c Hc) as [d' Hd'].
  exists (d' d). simpl. rewrite Hd. apply Hd'.
Qed.

Lemma splitDot_spec s : forall ip fp,
  splitDot s = Some (ip, fp) -> s = ip +:+ "." +:+ fp.
Proof.
  induction s as [|c s IH]; intros ip fp Hs; [discriminate|].
  cbn [splitDot] in Hs. destruct (Ascii.eqb_spec c ".") as [->|Hc].
  - by injection Hs as <- <-.
  - destruct (splitDot s) as [[ip' fp']|]; [|discriminate].
    injection Hs as <- <-. by rewrite append_cons, <- (IH ip' fp' eq_refl).
Qed.

Lemma splitDot_digits ip fp :
  allDigits ip = true -> splitDot (ip +:+ "." +:+ fp) = Some (ip, fp).
Proof.
  unfold allDigits. induction ip as [|c ip IH]; intros Hip; [reflexivity|].
  cbn [template.allChars] in Hip. apply andb_true_iff in Hip as [Hc Hip].
  rewrite append_cons. cbn [splitDot]. rewrite (IH Hip).
  by destruct (Ascii.eqb_spec c ".") as [->|_]; [discriminate Hc|].
Qed.

(** What a successful parse says of its input. *)
Lemma NewUFix64_ok s v :
  NewUFix64 s = (v, None) ->
  exists ip fp,
    s = ip +:+ "." +:+ fp /\ ip <> EmptyString
    /\ allDigits ip = true /\ allDigits fp = true
    /\ String.length fp = Fix64Scale
    /\ v = decimalValue ip * Fix64Factor + decimalValue fp
    /\ v <= maxUFix64.
Proof.
  unfold NewUFix64. destruct (splitDot s) as [[ip fp]|] eqn:Hsplit; [|discriminate].
  destruct (NilZero.uint_of_string ip) as [i|] eqn:Hi; [|discriminate].
  destruct (NilEmpty.uint_of_string fp) as [f|] eqn:Hf; [|discriminate].
  destruct (Nat.eqb_spec (String.length fp) Fix64Scale) as [Hlen|]; [|discriminate].
  cbn [negb]. destruct (N.ltb_spec maxUFix64 (N.of_uint i * Fix64Factor + N.of_uint f)) as [|Hmax];
    [discriminate|].
  intros [= <-]. exists ip, fp.
  assert (Hi' : NilEmpty.uint_of_string ip = Some i) by (by destruct ip).
  rewrite <- (of_uint_decimalValue ip i Hi'), <- (of_uint_decimalValue fp f Hf).
  repeat split; eauto using splitDot_spec, uint_of_string_digits.
  by destruct ip.
Qed.

(** A valid input parses to its value times 10^8. *)
Lemma NewUFix64_valid ip fp :
  ip <> EmptyString -> allDigits ip = true -> allDigits fp = true ->
  String.length fp = Fix64Scale ->
  decimalValue ip * Fix64Factor + decimalValue fp <= maxUFix64 ->
  NewUFix64 (ip +:+ "." +:+ fp)
  = (decimalValue ip * Fix64Factor + decimalValue fp, None).
Proof.
  intros Hne Hip Hfp Hlen Hmax. unfold NewUFix64.
  rewrite (splitDot_digits ip fp Hip).
  destruct (digits_uint_of_string ip Hip) as [i Hi].
  destruct (digits_uint_of_string fp Hfp) as [f Hf].
  assert (Hi' : NilZero.uint_of_string ip = Some i) by (by destruct ip).
  rewrite Hi', Hf, Hlen, Nat.eqb_refl. cbn [negb].
  rewrite (of_uint_decimalValue ip i Hi), (of_uint_decimalValue fp f Hf).
  by destruct (N.ltb_spec maxUFix64 (decimalValue ip * Fix64Factor + decimalValue fp)); [lia|].
Qed.

Lemma NewUFix64_error_value s v err : NewUFix64 s = (v, Some err) -> v = 0.
Proof.
  unfold NewUFix64.
  repeat (match goal with |- context [match ?x with _ => _ end] => destruct x end);
    by intros [= <-].
Qed.

Lemma validUFix64_length s : validUFix64 s -> (10 <= String.length s)%nat.
Proof.
  intros (ip & fp & -> & Hne & _ & _ & Hlen & _).
  rewrite !append_length, Hlen. destruct ip; [done|]. cbn. unfold Fix64Scale. lia.
Qed.

(** C1: on every input that is not a valid 8-decimal unsigned fixed-point
    numeral (wrong number of fractional digits, a sign, a non-digit, no
    dot, or a value beyond the 64-bit range) UFix64ToUInt64String returns
    an error and the empty string. *)
Theorem UFix64ToUInt64String_rejects s :
  ~ validUFix64 s ->
  exists err, retriever.UFix64ToUInt64String s = (EmptyString, Some err).
Proof.
  intros Hinvalid. unfold retriever.UFix64ToUInt64String.
  destruct (NewUFix64 s) as [v [err|]] eqn:Hparse; [by exists err|].
  destruct Hinvalid. apply NewUFix64_ok in Hparse as (ip & fp & ? & ? & ? & ? & ? & -> & ?).
  by exists ip, fp.
Qed.

(** ** Formatting *)

Lemma to_uint_nonnil v : N.to_uint v <> Nil.
Proof. destruct v as [|p]; [discriminate | apply DecimalPos.Unsigned.to_uint_nonnil]. Qed.

Lemma FormatUint_parses v :
  NilZero.uint_of_string (strconv.FormatUint v) = Some (N.to_uint v).
Proof.
  unfold strconv.FormatUint. rewrite <- (NilZero.usu (N.to_uint v) (to_uint_nonnil v)).
  f_equal. pose proof (to_uint_nonnil v). by destruct (N.to_uint v).
Qed.

Lemma string_of_uint_length d :
  String.length (NilEmpty.string_of_uint d) = nb_digits d.
Proof. induction d; cbn; congruence. Qed.

Lemma string_of_uint_nzhead d :
  NilEmpty.string_of_uint d
  = zeros (nb_digits d - nb_digits (nzhead d)) +:+ NilEmpty.string_of_uint (nzhead d).
Proof.
  induction d; cbn [nzhead];
    try (by rewrite Nat.sub_diag).
  pose proof (nb_digits_nzhead d).
  cbn [nb_digits NilEmpty.string_of_uint].
  replace (S (nb_digits d) - nb_digits (nzhead d))%nat
    with (S (nb_digits d - nb_digits (nzhead d))) by lia.
  cbn [zeros]. by rewrite append_cons, <- IHd.
Qed.

Lemma zeros_snoc n : zeros n +:+ "0" = zeros (S n).
Proof.
  induction n as [|n IH]; [done|]. cbn [zeros] in *. by rewrite append_cons, IH.
Qed.

(** Formatting the value of a numeral and padding it to the numeral's
    width gives the numeral back. *)
Lemma padLeft_FormatUint s d :
  s <> EmptyString ->
  NilEmpty.uint_of_string s = Some d ->
  padLeft (String.length s) (strconv.FormatUint (N.of_uint d)) = s.
Proof.
  intros Hne Hd. unfold strconv.FormatUint, padLeft.
  apply NilEmpty.sus in Hd as <-.
  rewrite DecimalN.Unsigned.to_of, !string_of_uint_length.
  assert (Hnb : nb_digits d <> 0%nat).
  { rewrite <- string_of_uint_length. by destruct (NilEmpty.string_of_uint d). }
  rewrite (string_of_uint_nzhead d).
  destruct (nzhead d) as [| | | | | | | | | |] eqn:Hnz;
    try (rewrite unorm_nzhead by (rewrite Hnz; discriminate); by rewrite Hnz).
  unfold unorm. rewrite Hnz. cbn [nb_digits NilEmpty.string_of_uint].
  rewrite Nat.sub_0_r, append_nil_r.
  destruct (nb_digits d) as [|n]; [done|].
  replace (S n - 1)%nat with n by lia. apply zeros_snoc.
Qed.

Lemma canonical_unorm s d :
  canonical s = true -> NilEmpty.uint_of_string s = Some d -> unorm d = d.
Proof.
  destruct s as [|c s]; [discriminate|]. intros Hcan Hd.
  apply uint_of_string_cons in Hd as (d' & Hd' & Hc).
  digit_cases Hc; try reflexivity.
  destruct s; [|discriminate Hcan]. by injection Hd' as <-.
Qed.

Lemma FormatUint_canonical s d :
  canonical s = true -> NilEmpty.uint_of_string s = Some d ->
  strconv.FormatUint (N.of_uint d) = s.
Proof.
  intros Hcan Hd. unfold strconv.FormatUint.
  rewrite DecimalN.Unsigned.to_of, (canonical_unorm s d Hcan Hd). by apply NilEmpty.sus.
Qed.

Lemma isDigit_value c : isDigit c = true -> N_of_ascii c - 48 <= 9.
Proof.
  unfold isDigit. intros [? ?%N.leb_le]%andb_true_iff. lia.
Qed.

Lemma decimalFrom_bound s : forall acc,
  allDigits s = true ->
  decimalFrom acc s < (acc + 1) * 10 ^ N.of_nat (String.length s).
Proof.
  unfold allDigits. induction s as [|c s IH]; intros acc Hs.
  - cbn. lia.
  - cbn [template.allChars] in Hs. apply andb_true_iff in Hs as [Hc Hs].
    apply isDigit_value in Hc. cbn [decimalFrom String.length].
    specialize (IH (10 * acc + (N_of_ascii c - 48)) Hs).
    rewrite Nat2N.inj_succ, N.pow_succ_r'. nia.
Qed.

Lemma decimalValue_bound s :
  allDigits s = true -> decimalValue s < 10 ^ N.of_nat (String.length s).
Proof.
  intros Hs. pose proof (decimalFrom_bound s 0 Hs). unfold decimalValue. lia.
Qed.

Lemma UFix64ToUInt64String_rejects_witness :
  exists err, retriever.UFix64ToUInt64String "1.0" = (EmptyString, Some err).
Proof.
  apply (UFix64ToUInt64String_rejects "1.0").
  intros Hvalid%validUFix64_length. cbn in Hvalid. lia.
Defined.

Example UFix64ToUInt64String_negative :
  exists err, retriever.UFix64ToUInt64String "-1.00000000" = (EmptyString, Some err).
Proof. by eexists. Qed.

Example UFix64ToUInt64String_not_numeric :
  exists err, retriever.UFix64ToUInt64String "one.00000000" = (EmptyString, Some err).
Proof. by eexists. Qed.

Example UFix64ToUInt64String_beyond_range :
  exists err,
    retriever.UFix64ToUInt64String "184467440737.09551616" = (EmptyString, Some err).
Proof. by eexists. Qed.

(** C4: on a valid input the result is the decimal numeral of
    value * 10^8, exactly; formatting the result back to 8 decimals gives
    the input when it is written as the format writes it, its integer
    part without a redundant leading zero. *)
Theorem UFix64ToUInt64String_exact ip fp :
  ip <> EmptyString -> allDigits ip = true -> allDigits fp = true ->
  String.length fp = Fix64Scale ->
  decimalValue ip * Fix64Factor + decimalValue fp <= maxUFix64 ->
  retriever.UFix64ToUInt64String (ip +:+ "." +:+ fp)
  = (strconv.FormatUint (decimalValue ip * Fix64Factor + decimalValue fp), None)
  /\ (canonical ip = true ->
      FormatUFix64 (strconv.FormatUint (decimalValue ip * Fix64Factor + decimalValue fp))
      = Some (ip +:+ "." +:+ fp)).
Proof.
  intros Hne Hip Hfp Hlen Hmax. split.
  - unfold retriever.UFix64ToUInt64String. by rewrite NewUFix64_valid.
  - intros Hcan. unfold FormatUFix64. rewrite FormatUint_parses, DecimalN.Unsigned.of_to.
    pose proof (decimalValue_bound fp Hfp) as Hbound. rewrite Hlen in Hbound.
    change (10 ^ N.of_nat Fix64Scale) with Fix64Factor in Hbound.
    assert (HF : Fix64Factor <> 0) by done.
    rewrite N.div_add_l, N.div_small, N.add_0_r by done.
    rewrite N.add_comm, N.Div0.mod_add, N.mod_small by done.
    destruct (digits_uint_of_string ip Hip) as [i Hi].
    destruct (digits_uint_of_string fp Hfp) as [f Hf].
    rewrite <- (of_uint_decimalValue ip i Hi), <- (of_uint_decimalValue fp f Hf).
    rewrite (FormatUint_canonical ip i Hcan Hi).
    rewrite <- Hlen, (padLeft_FormatUint fp f); [done | | done].
    intros ->. discriminate Hlen.
Qed.

Lemma UFix64ToUInt64String_exact_witness :
  retriever.UFix64ToUInt64String "0.00000001" = ("1", None)
  /\ FormatUFix64 "1" = Some "0.00000001".
Proof.
  destruct (UFix64ToUInt64String_exact "0" "00000001") as [Hexact Hback];
    [done | done | done | done | by vm_compute |].
  split; [exact Hexact | exact (Hback eq_refl)].
Defined.

Example UFix64ToUInt64String_one :
  retriever.UFix64ToUInt64String "1.00000000" = ("100000000", None).
Proof. reflexivity. Qed.

End numeral_facts.

(** ** flatten *)

Lemma forallb_Forall {A} (f : A -> bool) (l : list A) :
  forallb f l = true <-> Forall (fun x => f x = true) l.
Proof.
  induction l as [|x l IH]; cbn; [by split|].
  rewrite andb_true_iff, Forall_cons. by rewrite IH.
Qed.

Section flatten_facts.
  Import cadence retriever shape.
  Context `{Text}.

(** Induction over a value and the values nested in its lists. *)
Lemma Value_nested_ind (P : Value -> Prop) :
  (forall structType fields, Forall P fields -> P (Struct structType fields)) ->
  (forall pairs, Forall (fun item => P item.2) pairs -> P (Dictionary pairs)) ->
  (forall values, Forall P values -> P (Array values)) ->
  (forall tag, P (Scalar tag)) ->
  forall v, P v.
Proof.
  intros Hstruct Hdict Harray Hscalar.
  fix IH 1. intros [structType fields|pairs|values|tag].
  - apply Hstruct. induction fields as [|v fields IHfields]; constructor; [apply IH | done].
  - apply Hdict. induction pairs as [|[k v] pairs IHpairs]; constructor; [apply IH | done].
  - apply Harray. induction values as [|v values IHvalues]; constructor; [apply IH | done].
  - apply Hscalar.
Qed.

Section loops.
  Variable rec : Value -> outcome Flat.

Lemma flattenFields_done names fields : forall j result t,
  flattenFields rec names j fields result = Done t ->
  exists entries, t = FMap entries
    /\ (forall i v, fields !! i = Some v ->
          exists name x, names !! (j + i)%nat = Some name /\ rec v = Done x
            /\ is_Some (entries !! Identifier name))
    /\ (forall key x, entries !! key = Some x ->
          result !! key = Some x
          \/ exists i name v, names !! (j + i)%nat = Some name /\ Identifier name = key
               /\ fields !! i = Some v /\ rec v = Done x)
    /\ (forall key, is_Some (result !! key) -> is_Some (entries !! key)).
Proof.
  induction fields as [|v rest IH]; intros j result t Hloop; cbn in Hloop.
  - injection Hloop as <-. exists result. split_and!; [done|done|by left|done].
  - destruct (names !! j) as [name|] eqn:Hname; [|discriminate].
    destruct (rec v) as [x|] eqn:Hv; [|discriminate].
    apply IH in Hloop as (entries & -> & Hfields & Hentries & Hkept).
    exists entries. split_and!; [done| | |].
    + intros [|i] v' Hi; cbn in Hi.
      * injection Hi as <-. exists name, x. rewrite Nat.add_0_r. split_and!; [done..|].
        apply Hkept. rewrite lookup_insert_eq. by eexists.
      * destruct (Hfields i v' Hi) as (name' & x' & Hn & ? & ?).
        exists name', x'. by rewrite Nat.add_succ_r.
    + intros key y Hkey. destruct (Hentries key y Hkey) as [Hres|(i & name' & v' & Hn & ? & ? & ?)].
      * destruct (decide (Identifier name = key)) as [<-|Hne].
        -- rewrite lookup_insert_eq in Hres. injection Hres as <-.
           right. exists 0%nat, name, v. by rewrite Nat.add_0_r.
        -- rewrite lookup_insert_ne in Hres by done. by left.
      * right. exists (S i), name', v'. by rewrite Nat.add_succ_r.
    + intros key Hkey. apply Hkept.
      destruct (decide (Identifier name = key)) as [<-|Hne].
      * rewrite lookup_insert_eq. by eexists.
      * by rewrite lookup_insert_ne.
Qed.

Lemma flattenFields_total names fields : forall j result,
  Forall (fun v => exists t, rec v = Done t) fields ->
  (j + length fields <= length names)%nat ->
  exists entries, flattenFields rec names j fields result = Done (FMap entries).
Proof.
  induction fields as [|v rest IH]; intros j result Hall Hlen; cbn.
  - by eexists.
  - apply Forall_cons in Hall as [[t Ht] Hall]. cbn in Hlen.
    destruct (lookup_lt_is_Some_2 names j) as [name ->]; [lia|].
    rewrite Ht. apply IH; [done | lia].
Qed.

(** Past the declared names, the loop indexes out of range. *)
Lemma flattenFields_overrun names fields : forall j result,
  Forall (fun v => exists t, rec v = Done t) (take (length names - j) fields) ->
  (j <= length names)%nat ->
  (length names < j + length fields)%nat ->
  flattenFields rec names j fields result
  = Panic (IndexOutOfRange (length names) (length names)).
Proof.
  induction fields as [|v rest IH]; intros j result Hall Hj Hlen; cbn in *; [lia|].
  destruct (names !! j) as [name|] eqn:Hname.
  - apply lookup_lt_Some in Hname.
    replace (length names - j)%nat with (S (length names - S j)) in Hall by lia.
    cbn in Hall. apply Forall_cons in Hall as [[t ->] Hall].
    apply IH; [done | lia | lia].
  - apply lookup_ge_None in Hname. by replace j with (length names) by lia.
Qed.

Lemma flattenPairs_done pairs : forall result t,
  flattenPairs rec pairs result = Done t ->
  exists entries, t = FMap entries
    /\ (forall k v, (k, v) ∈ pairs ->
          is_Some (entries !! ValueString k) /\ exists x, rec v = Done x)
    /\ (forall key x, entries !! key = Some x ->
          result !! key = Some x
          \/ exists k v, (k, v) ∈ pairs /\ ValueString k = key /\ rec v = Done x)
    /\ (forall key, is_Some (result !! key) -> is_Some (entries !! key)).
Proof.
  induction pairs as [|[k v] rest IH]; intros result t Hloop; cbn in Hloop.
  - injection Hloop as <-. exists result. split_and!; [done| |by left|done].
    intros k v Hin. by apply elem_of_nil in Hin.
  - destruct (rec v) as [x|] eqn:Hv; [|discriminate].
    apply IH in Hloop as (entries & -> & Hpairs & Hentries & Hkept).
    exists entries. split_and!; [done| | |].
    + intros k' v' [Heq|Hin]%elem_of_cons.
      * injection Heq as -> ->. split; [|by eexists].
        apply Hkept. rewrite lookup_insert_eq. by eexists.
      * by apply Hpairs.
    + intros key y Hkey. destruct (Hentries key y Hkey) as [Hres|(k' & v' & Hin & ? & ?)].
      * destruct (decide (ValueString k = key)) as [<-|Hne].
        -- rewrite lookup_insert_eq in Hres. injection Hres as <-.
           right. exists k, v. split_and!; [apply elem_of_cons; by left | done..].
        -- rewrite lookup_insert_ne in Hres by done. by left.
      * right. exists k', v'. split_and!; [apply elem_of_cons; by right | done..].
    + intros key Hkey. apply Hkept.
      destruct (decide (ValueString k = key)) as [<-|Hne].
      * rewrite lookup_insert_eq. by eexists.
      * by rewrite lookup_insert_ne.
Qed.

Lemma flattenPairs_total pairs : forall result,
  Forall (fun item => exists t, rec item.2 = Done t) pairs ->
  exists entries, flattenPairs rec pairs result = Done (FMap entries).
Proof.
  induction pairs as [|[k v] rest IH]; intros result Hall; cbn.
  - by eexists.
  - apply Forall_cons in Hall as [[t Ht] Hall]. cbn in Ht. rewrite Ht. by apply IH.
Qed.

Lemma flattenValues_done values : forall result t,
  flattenValues rec values result = Done t ->
  exists items, t = FList (result ++ items)
    /\ Forall2 (fun v x => rec v = Done x) values items.
Proof.
  induction values as [|v rest IH]; intros result t Hloop; cbn in Hloop.
  - injection Hloop as <-. exists []. by rewrite app_nil_r.
  - destruct (rec v) as [x|] eqn:Hv; [|discriminate].
    apply IH in Hloop as (items & -> & Hall).
    exists (x :: items). rewrite <- app_assoc. split; [done | by constructor].
Qed.

Lemma flattenValues_total values : forall result,
  Forall (fun v => exists t, rec v = Done t) values ->
  exists items, flattenValues rec values result = Done (FList items).
Proof.
  induction values as [|v rest IH]; intros result Hall; cbn.
  - by eexists.
  - apply Forall_cons in Hall as [[t ->] Hall]. by apply IH.
Qed.

End loops.

Lemma flatten_Struct ty fields :
  flatten (Struct (Some ty) fields) = flattenFields flatten (Fields ty) 0 fields ∅.
Proof. reflexivity. Qed.

Lemma flatten_Dictionary pairs :
  flatten (Dictionary pairs) = flattenPairs flatten pairs ∅.
Proof. reflexivity. Qed.

Lemma flatten_Array values :
  flatten (Array values) = flattenValues flatten values [].
Proof. reflexivity. Qed.

Lemma flatten_Scalar tag :
  flatten (Scalar tag) = Done (FString (scalarText (Scalar tag))).
Proof.
  cbn. unfold scalarText. by destruct (Unquote (ValueString (Scalar tag))) as [r [e|]].
Qed.

(** Whatever flatten returns has the shape of its argument. *)
Lemma flatten_Shape v : forall t, flatten v = Done t -> Shape v t.
Proof.
  induction v as [structType fields IH|pairs IH|values IH|tag] using Value_nested_ind;
    intros t Hflat.
  - destruct structType as [ty|]; [|discriminate]. rewrite flatten_Struct in Hflat.
    apply flattenFields_done in Hflat as (entries & -> & Hfields & Hentries & _).
    constructor.
    + intros j v Hj. destruct (Hfields j v Hj) as (name & x & ? & _ & ?). by exists name.
    + intros key x Hkey.
      destruct (Hentries key x Hkey) as [Hempty|(i & name & v & ? & ? & Hi & Hv)].
      { by rewrite lookup_empty in Hempty. }
      exists i, name, v. split_and!; [done..|].
      rewrite Forall_lookup in IH. by apply (IH i v Hi).
  - rewrite flatten_Dictionary in Hflat.
    apply flattenPairs_done in Hflat as (entries & -> & Hpairs & Hentries & _).
    constructor.
    + intros k v Hin. by apply Hpairs in Hin as [? _].
    + intros key x Hkey.
      destruct (Hentries key x Hkey) as [Hempty|(k & v & Hin & ? & Hv)].
      { by rewrite lookup_empty in Hempty. }
      exists k, v. split_and!; [done..|].
      rewrite Forall_forall in IH. by apply (IH (k, v) Hin).
  - rewrite flatten_Array in Hflat.
    apply flattenValues_done in Hflat as (items & -> & Hall). cbn.
    constructor. clear -IH Hall. induction Hall as [|v x values items Hv Hall IHall].
    + constructor.
    + apply Forall_cons in IH as [IHv IH]. constructor; [by apply IHv | by apply IHall].
  - rewrite flatten_Scalar in Hflat. injection Hflat as <-. constructor.
Qed.

(** On a well-typed value flatten returns. *)
Lemma flatten_total v : wellTyped v = true -> exists t, flatten v = Done t.
Proof.
  induction v as [structType fields IH|pairs IH|values IH|tag] using Value_nested_ind;
    intros Hwt; cbn [wellTyped] in Hwt.
  - destruct structType as [ty|]; [|discriminate].
    apply andb_true_iff in Hwt as [Hlen%Nat.leb_le Hall].
    apply forallb_Forall in Hall. rewrite flatten_Struct.
    destruct (flattenFields_total flatten (Fields ty) fields 0 ∅) as [entries ->];
      [|done|by eexists].
    rewrite Forall_forall in IH, Hall |- *. intros v Hv. by apply IH, Hall.
  - apply forallb_Forall in Hwt. rewrite flatten_Dictionary.
    destruct (flattenPairs_total flatten pairs ∅) as [entries ->]; [|by eexists].
    rewrite Forall_forall in IH, Hwt |- *. intros v Hv. by apply IH, Hwt.
  - apply forallb_Forall in Hwt. rewrite flatten_Array.
    destruct (flattenValues_total flatten values []) as [items ->]; [|by eexists].
    rewrite Forall_forall in IH, Hwt |- *. intros v Hv. by apply IH, Hwt.
  - rewrite flatten_Scalar. by eexists.
Qed.

(** flatten returns on well-typed values only. *)
Lemma flatten_done_wellTyped v : forall t, flatten v = Done t -> wellTyped v = true.
Proof.
  induction v as [structType fields IH|pairs IH|values IH|tag] using Value_nested_ind;
    intros t Hflat; cbn [wellTyped].
  - destruct structType as [ty|]; [|discriminate]. rewrite flatten_Struct in Hflat.
    apply flattenFields_done in Hflat as (entries & -> & Hfields & _).
    apply andb_true_iff. split.
    + apply Nat.leb_le. destruct (decide (length fields <= length (Fields ty))%nat) as [|Hgt]; [done|].
      destruct (lookup_lt_is_Some_2 fields (length (Fields ty))) as [v Hv]; [lia|].
      destruct (Hfields _ _ Hv) as (name & _ & Hname%lookup_lt_Some & _). lia.
    + apply forallb_Forall, Forall_lookup. intros i v Hi.
      destruct (Hfields _ _ Hi) as (_ & x & _ & Hx & _).
      rewrite Forall_lookup in IH. by apply (IH i v Hi x).
  - rewrite flatten_Dictionary in Hflat.
    apply flattenPairs_done in Hflat as (entries & -> & Hpairs & _).
    apply forallb_Forall, Forall_forall. intros [k v] Hin.
    destruct (Hpairs k v Hin) as [_ [x Hx]].
    rewrite Forall_forall in IH. by apply (IH (k, v) Hin x).
  - rewrite flatten_Array in Hflat.
    apply flattenValues_done in Hflat as (items & -> & Hall).
    apply forallb_Forall, Forall_lookup. intros i v Hi.
    destruct (Forall2_lookup_l _ _ _ _ _ Hall Hi) as (x & _ & Hx).
    rewrite Forall_lookup in IH. by apply (IH i v Hi x).
  - done.
Qed.

(** C3: on every execution result value, a value whose structs carry
    their type and no more field values than declared names, flatten
    returns, and the tree it returns has the shape of the value: a
    record becomes a
    mapping from field name to flattened field value, a mapping a
    mapping keyed by the key's text, an array the list of its flattened
    elements in order, a scalar its unquoted text, or its raw text when
    unquoting fails. *)
Theorem flatten_total_on_wellTyped v :
  wellTyped v = true -> exists t, flatten v = Done t /\ Shape v t.
Proof.
  intros Hwt. destruct (flatten_total v Hwt) as [t Ht].
  exists t. split; [done | by apply flatten_Shape].
Qed.

(** C10: flatten returns only on values whose structs carry no more
    field values than their type declares names; on a struct with more,
    it panics, and when the values up to the last declared name flatten
    the panic is the index out of range at the first value without a
    name. *)
Theorem flatten_overruns_declared_names :
  (forall v t, flatten v = Done t -> wellTyped v = true)
  /\ (forall ty fields,
        (length (Fields ty) < length fields)%nat ->
        (exists p, flatten (Struct (Some ty) fields) = Panic p)
        /\ (forallb wellTyped (take (length (Fields ty)) fields) = true ->
            flatten (Struct (Some ty) fields)
            = Panic (IndexOutOfRange (length (Fields ty)) (length (Fields ty))))).
Proof.
  split; [apply flatten_done_wellTyped|].
  intros ty fields Hlen. split.
  - destruct (flatten (Struct (Some ty) fields)) as [t|p] eqn:Hflat; [|by exists p].
    apply flatten_done_wellTyped in Hflat. cbn [wellTyped] in Hflat.
    apply andb_true_iff in Hflat as [Hle%Nat.leb_le _]. lia.
  - intros Hall%forallb_Forall. rewrite flatten_Struct.
    apply flattenFields_overrun; [|lia|lia].
    rewrite Nat.sub_0_r. eapply Forall_impl; [exact Hall|].
    intros v Hv. by apply flatten_total.
Qed.

End flatten_facts.

Section flatten_examples.
  Import cadence retriever shape fixture.

Lemma flatten_total_on_wellTyped_witness :
  exists t, flatten stakingInfo = Done t /\ Shape stakingInfo t.
Proof. exact (flatten_total_on_wellTyped stakingInfo eq_refl). Defined.

(** A struct with a field value and no declared name is no execution
    result value. *)
Example flatten_without_name :
  flatten (Struct (Some {| Fields := [] |}) [Scalar "1"])
  = Panic (IndexOutOfRange 0 0).
Proof. reflexivity. Qed.

Lemma flatten_overruns_declared_names_witness :
  flatten (Struct (Some {| Fields := [ {| Identifier := "id" |} ] |})
             [Scalar "1"; Scalar "2"])
  = Panic (IndexOutOfRange 1 1).
Proof.
  exact (proj2 (proj2 flatten_overruns_declared_names
                  {| Fields := [ {| Identifier := "id" |} ] |}
                  [Scalar "1"; Scalar "2"] (le_n 2)) eq_refl).
Defined.

Example flatten_scalar_unquoted :
  flatten (Scalar (scripts.dq +:+ "node-1" +:+ scripts.dq)) = Done (FString "node-1").
Proof. reflexivity. Qed.

Example flatten_scalar_raw :
  flatten (Scalar "1.00000000") = Done (FString "1.00000000").
Proof. reflexivity. Qed.

Example flatten_nil_type : flatten (Struct None []) = Panic NilDereference.
Proof. reflexivity. Qed.

End flatten_examples.

(** ** Validator.Block *)

Section validator_facts.
  Import failure identifier flow validator.
  Context `{Identifiers} {World : Type} `{!AccessAPI World} `{Texts}.

(** Unfold the steps of [Block] down to the calls of the access client. *)
Ltac steps :=
  unfold Block; cbn beta;
  unfold mbind, M_bind, mret, M_ret, try, fail.

Lemma first_floor (index : N) : (index <? first) = false.
Proof. apply N.ltb_ge. unfold first. lia. Qed.

(** C6: when index and hash are both absent, Block returns the height
    and identifier of the head the access client reports; a second call
    that finds the same head returns the same pair. *)
Theorem Block_latest (rosBlockID : identifier.Block) (w w1 w2 : World) last :
  Index rosBlockID = None -> Hash rosBlockID = EmptyString ->
  GetLatestBlockHeader true w = (inr last, w1) ->
  GetLatestBlockHeader true w1 = (inr last, w2) ->
  Block rosBlockID w = ((Height last, ID last, None), w1)
  /\ Block rosBlockID w1 = ((Height last, ID last, None), w2).
Proof.
  intros Hindex Hhash Hw Hw1. steps.
  rewrite bool_decide_eq_true_2 by done. by rewrite Hw, Hw1.
Qed.

Lemma Block_hash_checked (rosBlockID : identifier.Block) :
  Hash rosBlockID = EmptyString \/ (HexStringToIdentifier (Hash rosBlockID)).2 = None ->
  (if bool_decide (Hash rosBlockID ≠ EmptyString)
   then match HexStringToIdentifier (Hash rosBlockID) with
        | (_, Some _) =>
            fail (World := World) (InvalidBlock (NewDescription blockInvalid
              [WithString "block_hash" (Hash rosBlockID)]))
        | (_, None) => mret tt
        end
   else mret tt) = mret tt.
Proof.
  intros [Hempty|Hhex].
  - by rewrite bool_decide_eq_false_2 by (by intros []).
  - destruct (HexStringToIdentifier (Hash rosBlockID)) as [i [e|]]; [done|].
    by case_bool_decide.
Qed.

(** For an identifier with an index and a hash that is absent or well
    formed, an index above the head fails with UnknownBlock carrying the
    index, the hash and the head height, and a successful call has its
    index at or below the head. *)
Lemma Block_above_head (rosBlockID : identifier.Block) index (w w1 : World) last :
  Index rosBlockID = Some index ->
  Hash rosBlockID = EmptyString \/ (HexStringToIdentifier (Hash rosBlockID)).2 = None ->
  GetLatestBlockHeader true w = (inr last, w1) ->
  (Height last < index ->
     Block rosBlockID w
     = ((0, ZeroID, Some (UnknownBlock index (Hash rosBlockID)
           (NewDescription blockTooHigh [WithUint64 "last_index" (Height last)]))), w1))
  /\ (forall height blockID w2,
        Block rosBlockID w = ((height, blockID, None), w2) ->
        index <= Height last).
Proof.
  intros Hindex Hhash Hw. steps.
  rewrite bool_decide_eq_false_2 by (rewrite Hindex; by intros [? _]).
  pose proof (Block_hash_checked rosBlockID Hhash) as Hchecked.
  unfold fail, mret, M_ret in Hchecked. rewrite Hchecked, Hindex.
  split.
  - intros Hhigh%N.ltb_lt. by rewrite first_floor, Hw, Hhigh.
  - intros height blockID w2. rewrite first_floor, Hw.
    by destruct (N.ltb_spec (Height last) index) as [|Hle].
Qed.

(** C7: with an index and a well-formed hash, once the header at the
    index has been fetched, a hash that differs from the header's fails
    with InvalidBlock (mismatch) carrying the index, the given hash and
    the canonical hash. *)
Theorem Block_hash_mismatch (rosBlockID : identifier.Block) index
    (w w1 w2 : World) last header :
  Index rosBlockID = Some index ->
  Hash rosBlockID <> EmptyString ->
  (HexStringToIdentifier (Hash rosBlockID)).2 = None ->
  GetLatestBlockHeader true w = (inr last, w1) ->
  index <= Height last ->
  GetBlockHeaderByHeight index w1 = (inr header, w2) ->
  Hash rosBlockID <> Hex (ID header) ->
  Block rosBlockID w
  = ((0, ZeroID, Some (InvalidBlock (NewDescription blockMismatch
        [WithUint64 "block_index" index;
         WithString "block_hash" (Hash rosBlockID);
         WithString "want_hash" (Hex (ID header))]))), w2).
Proof.
  intros Hindex Hhash Hhex Hw Hle Hw1 Hne. steps.
  rewrite bool_decide_eq_false_2 by (rewrite Hindex; by intros [? _]).
  pose proof (Block_hash_checked rosBlockID (or_intror Hhex)) as Hchecked.
  unfold fail, mret, M_ret in Hchecked. rewrite Hchecked, Hindex.
  rewrite first_floor, Hw.
  destruct (N.ltb_spec (Height last) index) as [|_]; [lia|].
  rewrite Hw1. by rewrite bool_decide_eq_true_2.
Qed.

End validator_facts.

Section validator_examples.
  Import failure identifier flow validator fixture.

Lemma Block_latest_witness :
  Block {| Index := None; Hash := EmptyString |} chain
  = ((5, repeatChar 64 "f", None), chain)
  /\ Block {| Index := None; Hash := EmptyString |} chain
  = ((5, repeatChar 64 "f", None), chain).
Proof.
  exact (Block_latest {| Index := None; Hash := EmptyString |} chain chain chain
           {| ID := repeatChar 64 "f"; Height := 5 |} eq_refl eq_refl eq_refl eq_refl).
Defined.

Example Block_above_head_fixture :
  Block {| Index := Some 10; Hash := EmptyString |} chain
  = ((0, ZeroID, Some (UnknownBlock 10 EmptyString
        (NewDescription blockTooHigh [WithUint64 "last_index" 5]))), chain).
Proof. reflexivity. Qed.

Lemma Block_hash_mismatch_witness :
  Block {| Index := Some 3; Hash := repeatChar 64 "a" |} chain
  = ((0, ZeroID, Some (InvalidBlock (NewDescription blockMismatch
        [WithUint64 "block_index" 3;
         WithString "block_hash" (repeatChar 64 "a");
         WithString "want_hash" (repeatChar 64 "d")]))), chain).
Proof.
  refine (Block_hash_mismatch {| Index := Some 3; Hash := repeatChar 64 "a" |} 3
            chain chain chain {| ID := repeatChar 64 "f"; Height := 5 |}
            {| ID := repeatChar 64 "d"; Height := 3 |}
            eq_refl _ eq_refl eq_refl _ eq_refl _); [done | vm_compute; discriminate | done].
Defined.

End validator_examples.


(** ** Templates and the generator *)

Section template_facts.
  Import template rendering.

(** Executing writes after what the buffer holds. *)
Lemma Execute_buffer t data : forall buf,
  Execute t buf data
  = (buf +:+ (Execute t EmptyString data).1, (Execute t EmptyString data).2).
Proof.
  induction t as [|[text|idents] t IH]; intros buf; cbn; rewrite ?append_nil_l.
  - by rewrite append_nil_r.
  - rewrite (IH (buf +:+ text)), (IH text). cbn. by rewrite append_assoc.
  - destruct (data idents) as [printed|]; cbn; rewrite ?append_nil_l.
    + rewrite (IH (buf +:+ printed)), (IH printed). cbn. by rewrite append_assoc.
    + by rewrite append_nil_r.
Qed.

Lemma Execute_succeeds t data : forall buf,
  Forall (fun node => match node with
                      | TextNode _ => True
                      | FieldNode idents => is_Some (data idents)
                      end) t ->
  exists out, Execute t buf data = (out, None).
Proof.
  induction t as [|[text|idents] t IH]; intros buf Hall; cbn.
  - by eexists.
  - apply Forall_cons in Hall as [_ Hall]. by apply IH.
  - apply Forall_cons in Hall as [[printed ->] Hall]. by apply IH.
Qed.

(** The printed value of every field node of the template occurs in
    what a successful execution wrote. *)
Lemma Execute_contains t data idents printed : forall buf out,
  Execute t buf data = (out, None) ->
  FieldNode idents ∈ t -> data idents = Some printed ->
  contains printed out.
Proof.
  induction t as [|node t IH]; intros buf out Hexec Hin Hdata.
  - by apply elem_of_nil in Hin.
  - apply elem_of_cons in Hin as [<-|Hin].
    + cbn in Hexec. rewrite Hdata, Execute_buffer in Hexec.
      injection Hexec as <- _. exists buf. eexists. by rewrite append_assoc.
    + destruct node as [text|idents']; cbn in Hexec.
      * by apply (IH _ _ Hexec).
      * destruct (data idents'); [|discriminate]. by apply (IH _ _ Hexec).
Qed.

(** A template that ends with a text node writes that text last. *)
Lemma Execute_ending t text data : forall buf out,
  Execute (t ++ [TextNode text]) buf data = (out, None) ->
  exists body, out = body +:+ text.
Proof.
  induction t as [|[text'|idents] t IH]; intros buf out Hexec; cbn in Hexec.
  - injection Hexec as <-. by exists buf.
  - by apply IH in Hexec.
  - destruct (data idents); [|discriminate]. by apply IH in Hexec.
Qed.

End template_facts.

Section generator_facts.
  Import flow template scripts rendering.

Lemma data_known params token idents :
  idents ∈ knownFields -> is_Some (data params token idents).
Proof.
  unfold knownFields. rewrite !elem_of_cons, elem_of_nil.
  intros [->|[->|[->|[->|[->|[->|[->|[]]]]]]]]; by eexists.
Qed.

Lemma data_Token_Address params token :
  data params token ["Token"; "Address"] = Some (AddressString (dps.Address token)).
Proof. reflexivity. Qed.

Lemma data_Token_Balance params token :
  data params token ["Token"; "Balance"] = Some (dps.Balance token).
Proof. reflexivity. Qed.

Lemma wellScoped_executes t params token buf :
  wellScoped t = true -> exists out, Execute t buf (data params token) = (out, None).
Proof.
  intros Hscoped. apply Execute_succeeds.
  apply forallb_Forall in Hscoped. eapply Forall_impl; [exact Hscoped|].
  intros [text|idents] Hnode; [done|]. cbn in Hnode.
  apply bool_decide_eq_true in Hnode. by apply data_known.
Qed.

Lemma bytes_unknown g t symbol :
  dps.Tokens (g_params g) !! symbol = None ->
  bytes g t symbol = (EmptyString, Some (invalidSymbol symbol)).
Proof. intros Hnone. unfold bytes, compile. by rewrite Hnone. Qed.

Lemma string_bytes g t symbol : string' g t symbol = bytes g t symbol.
Proof. reflexivity. Qed.

Lemma bytes_known g t symbol token :
  dps.Tokens (g_params g) !! symbol = Some token ->
  wellScoped t = true ->
  exists script,
    bytes g t symbol = (script, None)
    /\ Execute t EmptyString (data (g_params g) token) = (script, None).
Proof.
  intros Hsome Hscoped. unfold bytes, compile. rewrite Hsome.
  destruct (wellScoped_executes t (g_params g) token EmptyString Hscoped) as [out Hout].
  rewrite Hout. by exists out.
Qed.

(** What NewGenerator stores when it returns. *)
Lemma NewGenerator_done `{Builtins} params g :
  NewGenerator params = Done g ->
  g_params g = params
  /\ Parse getStakedBalance = (g_getStakedBalance g, None)
  /\ exists mainnetCustom,
       compileContracts mainnetContracts ∅ = Done mainnetCustom
       /\ g_custom g = <[Mainnet := mainnetCustom]> ∅.
Proof.
  unfold NewGenerator, mbind, outcome_bind, mret, outcome_ret, Must.
  destruct (Parse getBalance) as [? [?|]]; [discriminate|].
  destruct (Parse getStakedBalance) as [? [?|]]; [discriminate|].
  destruct (Parse transferTokens) as [? [?|]]; [discriminate|].
  destruct (Parse tokensDeposited) as [? [?|]]; [discriminate|].
  destruct (Parse tokensWithdrawn) as [? [?|]]; [discriminate|].
  destruct (Parse delegatorRewardsPaid) as [? [?|]]; [discriminate|].
  destruct (compileContracts mainnetContracts ∅) as [mainnetCustom|]; [|discriminate].
  intros [= <-]. cbn. split_and!; [done..|]. by exists mainnetCustom.
Qed.

Lemma compileContracts_done contracts : forall custom0 custom,
  compileContracts contracts custom0 = Done custom ->
  (forall address,
     (forall key contract, (key, contract) ∈ contracts -> HexToAddress key <> address) ->
     custom !! address = custom0 !! address)
  /\ (NoDup (HexToAddress <$> contracts.*1) ->
      forall key contract, (key, contract) ∈ contracts ->
      exists t, Parse contract = (t, None) /\ custom !! HexToAddress key = Some t).
Proof.
  induction contracts as [|[key contract] rest IH]; intros custom0 custom Hdone;
    cbn in Hdone.
  - injection Hdone as <-. split; [done|]. intros _ key contract Hin.
    by apply elem_of_nil in Hin.
  - unfold mbind, outcome_bind, Must in Hdone.
    destruct (Parse contract) as [t [?|]] eqn:Hparse; [discriminate|].
    apply IH in Hdone as [Habsent Hpresent]. split.
    + intros address Hno. rewrite Habsent.
      * apply lookup_insert_ne. apply (Hno key contract), elem_of_cons. by left.
      * intros key' contract' Hin. apply (Hno key' contract'), elem_of_cons. by right.
    + cbn. intros [Hfresh Hnodup]%NoDup_cons key' contract' [Heq|Hin]%elem_of_cons.
      * injection Heq as -> ->. exists t. split; [done|].
        rewrite Habsent; [apply lookup_insert_eq|].
        intros key' contract' Hin Heq. apply Hfresh. rewrite <- Heq.
        apply list_elem_of_fmap_2. by apply (list_elem_of_fmap_2 fst _ (key', contract')).
      * by apply Hpresent.
Qed.

Lemma mainnetContracts_NoDup : NoDup (HexToAddress <$> mainnetContracts.*1).
Proof. apply (bool_decide_unpack _). by vm_compute. Qed.

(** The staked-balance template parses; its actions print known
    fields, the token's address and balance path among them, and its
    text ends with [stakedReturn]. *)
Lemma getStakedBalance_parsed :
  exists front text,
    Parse getStakedBalance = (front ++ [TextNode (text +:+ stakedReturn)], None)
    /\ wellScoped (front ++ [TextNode (text +:+ stakedReturn)]) = true
    /\ FieldNode ["Token"; "Address"] ∈ front
    /\ FieldNode ["Token"; "Balance"] ∈ front.
Proof.
  pose (nodes := (Parse getStakedBalance).1).
  pose (ending := match last nodes with Some (TextNode text) => text | _ => EmptyString end).
  exists (removelast nodes),
    (substring 0 (String.length ending - String.length stakedReturn) ending).
  split_and!; [by vm_compute | by vm_compute | |];
    apply (bool_decide_unpack _); by vm_compute.
Qed.

Lemma GetStakedBalance_known `{Builtins} params g symbol token :
  NewGenerator params = Done g ->
  dps.Tokens params !! symbol = Some token ->
  exists body,
    GetStakedBalance g symbol = (body +:+ stakedReturn, None)
    /\ contains (AddressString (dps.Address token)) (body +:+ stakedReturn)
    /\ contains (dps.Balance token) (body +:+ stakedReturn).
Proof.
  intros (Hparams & Hparse & _)%NewGenerator_done Htoken.
  destruct getStakedBalance_parsed as (front & text & Hparsed & Hscoped & Haddress & Hbalance).
  rewrite Hparsed in Hparse. injection Hparse as Hnodes.
  unfold GetStakedBalance. rewrite <- Hnodes. rewrite <- Hparams in Htoken.
  destruct (bytes_known g _ symbol token Htoken Hscoped) as (script & -> & Hexec).
  destruct (Execute_ending _ _ _ _ _ Hexec) as [body' ->].
  exists (body' +:+ text). rewrite append_assoc. split_and!; [done| |].
  - eapply Execute_contains; [exact Hexec| |apply data_Token_Address].
    apply elem_of_app. by left.
  - eapply Execute_contains; [exact Hexec| |apply data_Token_Balance].
    apply elem_of_app. by left.
Qed.

(** Whatever the five templates of [Builtins] are: for a symbol the
    registry lacks, every template operation fails with the
    invalid-token-symbol error; for a registered symbol the staked-balance
    script renders and contains the token's address and balance path, and
    so does every operation whose template prints known fields, for the
    fields its template names. *)
Lemma render_on_known_fields `{Builtins} params g symbol :
  NewGenerator params = Done g ->
  (dps.Tokens params !! symbol = None ->
     forall op, render op g symbol = (EmptyString, Some (invalidSymbol symbol)))
  /\ (forall token, dps.Tokens params !! symbol = Some token ->
        (exists script,
           GetStakedBalance g symbol = (script, None)
           /\ contains (AddressString (dps.Address token)) script
           /\ contains (dps.Balance token) script)
        /\ (forall op, wellScoped (templateOf op g) = true ->
              exists script,
                render op g symbol = (script, None)
                /\ (FieldNode ["Token"; "Address"] ∈ templateOf op g ->
                    contains (AddressString (dps.Address token)) script)
                /\ (FieldNode ["Token"; "Balance"] ∈ templateOf op g ->
                    contains (dps.Balance token) script))).
Proof.
  intros Hnew. pose proof (NewGenerator_done params g Hnew) as (Hparams & _).
  split.
  - intros Hnone op. rewrite <- Hparams in Hnone.
    destruct op; cbn; unfold GetBalance, GetStakedBalance, TransferTokens,
      TokensDeposited, TokensWithdrawn, DelegatorRewardsPaid;
      rewrite ?string_bytes; by apply bytes_unknown.
  - intros token Htoken. split.
    + destruct (GetStakedBalance_known params g symbol token Hnew Htoken)
        as (body & ? & ? & ?). by eexists.
    + intros op Hscoped. rewrite <- Hparams in Htoken.
      destruct (bytes_known g _ symbol token Htoken Hscoped) as (script & Hbytes & Hexec).
      exists script. split_and!.
      * by destruct op.
      * intros Hin. eapply Execute_contains; [exact Hexec|done|apply data_Token_Address].
      * intros Hin. eapply Execute_contains; [exact Hexec|done|apply data_Token_Balance].
Qed.

End generator_facts.


Section generator_examples.
  Import flow template scripts rendering fixture.

Lemma NewGenerator_fixture : exists g, NewGenerator params = Done g.
Proof. eexists. vm_compute. reflexivity. Qed.

(** C5, on the code: the staked-balance script rendered for FLOW ends
    with [return vaultBalance + stakedBalance]; that is the only place
    the script names [stakedBalance], so the name is declared nowhere,
    and the sum [totalTokens] the script accumulates is not returned. *)
Theorem GetStakedBalance_returns_undeclared_name :
  exists g body,
    NewGenerator params = Done g
    /\ GetStakedBalance g "FLOW" = (body +:+ stakedReturn, None)
    /\ occurrences "stakedBalance" (body +:+ stakedReturn) = 1%nat
    /\ occurrences "stakedBalance" stakedReturn = 1%nat
    /\ occurrences "totalTokens" stakedReturn = 0%nat.
Proof.
  eexists.
  match goal with
  | |- exists body, NewGenerator _ = Done ?g /\ _ =>
      exists (let script := (GetStakedBalance g "FLOW").1 in
              substring 0 (String.length script - String.length stakedReturn) script)
  end.
  split_and!; [vm_compute; reflexivity | by vm_compute..].
Qed.

End generator_examples.

(** * Further properties *)

(** ** Validator.Block: the other paths *)

Section validator_paths.
Import failure identifier flow validator blockid blockfailure.
Context `{Identifiers} {World : Type} `{!AccessAPI World} `{Texts}.

(** Unfold [Block] down to the calls it makes. *)
Ltac unfold_Block :=
  unfold Block; cbn beta;
  unfold mbind, M_bind, mret, M_ret, try, fail.

(** X1: an identifier with a hash that is no well-formed block ID fails
    with InvalidBlock carrying the hash, with or without an index, and
    the access client is not called. *)
Theorem Block_rejects_malformed_hash (rosBlockID : identifier.Block) (w : World) err :
  Hash rosBlockID <> EmptyString ->
  (HexStringToIdentifier (Hash rosBlockID)).2 = Some err ->
  Block rosBlockID w
  = ((0, ZeroID, Some (InvalidBlock (NewDescription blockInvalid
        [WithString "block_hash" (Hash rosBlockID)]))), w).
Proof.
  intros Hhash Hhex. unfold_Block.
  rewrite bool_decide_eq_false_2 by (by intros [_ ?]).
  rewrite bool_decide_eq_true_2 by done.
  destruct (HexStringToIdentifier (Hash rosBlockID)) as [i [e|]]; [done | discriminate].
Qed.

(** X2: an identifier with only an index within the head resolves to the
    height and the decoded ID of the header the client returns for that
    index. *)
Theorem Block_index_only (rosBlockID : identifier.Block) index
    (w w1 w2 : World) last header blockID :
  Index rosBlockID = Some index ->
  Hash rosBlockID = EmptyString ->
  GetLatestBlockHeader true w = (inr last, w1) ->
  index <= Height last ->
  GetBlockHeaderByHeight index w1 = (inr header, w2) ->
  HexStringToIdentifier (Hex (ID header)) = (blockID, None) ->
  Block rosBlockID w = ((Height header, blockID, None), w2).
Proof.
  intros Hindex Hhash Hw Hle Hw1 Hhex. unfold_Block.
  rewrite bool_decide_eq_false_2 by (rewrite Hindex; by intros [? _]).
  rewrite bool_decide_eq_false_2 by (by intros []).
  rewrite Hindex, first_floor, Hw.
  destruct (N.ltb_spec (Height last) index) as [|_]; [lia|].
  rewrite Hw1, bool_decide_eq_false_2 by (by intros [? _]).
  by rewrite Hhex.
Qed.

(** X3: an identifier with only a hash is resolved through the header
    found by ID and then the header at that header's height, without
    consulting the head: it succeeds when the second header prints as the
    given hash and fails with InvalidBlock (mismatch) at the derived
    height otherwise. *)
Theorem Block_hash_only (rosBlockID : identifier.Block)
    (w w1 w2 : World) found header :
  Index rosBlockID = None ->
  Hash rosBlockID <> EmptyString ->
  (HexStringToIdentifier (Hash rosBlockID)).2 = None ->
  GetBlockHeaderByID (HexToID (Hash rosBlockID)) w = (inr found, w1) ->
  GetBlockHeaderByHeight (Height found) w1 = (inr header, w2) ->
  (Hash rosBlockID = Hex (ID header) ->
     Block rosBlockID w
     = ((Height header, (HexStringToIdentifier (Hash rosBlockID)).1, None), w2))
  /\ (Hash rosBlockID <> Hex (ID header) ->
     Block rosBlockID w
     = ((0, ZeroID, Some (InvalidBlock (NewDescription blockMismatch
           [WithUint64 "block_index" (Height found);
            WithString "block_hash" (Hash rosBlockID);
            WithString "want_hash" (Hex (ID header))]))), w2)).
Proof.
  intros Hindex Hhash Hhex Hw Hw1. unfold_Block.
  rewrite bool_decide_eq_false_2 by (by intros [_ ?]).
  rewrite bool_decide_eq_true_2 by done.
  destruct (HexStringToIdentifier (Hash rosBlockID)) as [i [e|]] eqn:Hdecode;
    [discriminate|].
  rewrite Hindex, Hw, Hw1. split.
  - intros Heq. rewrite bool_decide_eq_false_2 by (by intros [_ ?]).
    by rewrite <- Heq, Hdecode.
  - intros Hne. by rewrite bool_decide_eq_true_2.
Qed.

(** X4: whenever Block succeeds on an identifier with a hash, the block
    ID it returns is the decoding of that hash, and the height is that of
    a header fetched by height whose ID prints as the hash. *)
Theorem Block_success_sound (rosBlockID : identifier.Block) (w w' : World) height blockID :
  Block rosBlockID w = ((height, blockID, None), w') ->
  Hash rosBlockID <> EmptyString ->
  HexStringToIdentifier (Hash rosBlockID) = (blockID, None)
  /\ exists index w0 header,
       GetBlockHeaderByHeight index w0 = (inr header, w')
       /\ height = Height header
       /\ Hash rosBlockID = Hex (ID header)
       /\ (forall given, Index rosBlockID = Some given -> index = given).
Proof.
  intros Hblock Hhash. revert Hblock. unfold_Block.
  rewrite bool_decide_eq_false_2 by (by intros [_ ?]).
  rewrite bool_decide_eq_true_2 by done.
  destruct (HexStringToIdentifier (Hash rosBlockID)) as [i [e|]] eqn:Hdecode;
    [discriminate|].
  assert (Hsame : forall header : BlockHeader,
            ~ (Hash rosBlockID <> EmptyString /\ Hash rosBlockID <> Hex (ID header)) ->
            Hash rosBlockID = Hex (ID header)).
  { intros header Hcmp. destruct (decide (Hash rosBlockID = Hex (ID header))); [done|].
    destruct Hcmp. by split. }
  destruct (Index rosBlockID) as [index|] eqn:Hindex.
  - rewrite first_floor.
    destruct (GetLatestBlockHeader true w) as [[err|last] w1]; [discriminate|].
    destruct (Height last <? index); [discriminate|].
    destruct (GetBlockHeaderByHeight index w1) as [[err|header] w2] eqn:Hw1; [discriminate|].
    case_bool_decide as Hcmp; [discriminate|]. apply Hsame in Hcmp.
    rewrite <- Hcmp, Hdecode. intros [= <- <- <-]. split; [done|].
    exists index, w1, header. split_and!; [done..|]. by intros given [= ->].
  - destruct (GetBlockHeaderByID (HexToID (Hash rosBlockID)) w) as [[err|found] w1];
      [discriminate|].
    destruct (GetBlockHeaderByHeight (Height found) w1) as [[err|header] w2] eqn:Hw1;
      [discriminate|].
    case_bool_decide as Hcmp; [discriminate|]. apply Hsame in Hcmp.
    rewrite <- Hcmp, Hdecode. intros [= <- <- <-]. split; [done|].
    exists (Height found), w1, header. split_and!; [done..|]. by intros given [=].
Qed.

(** X5: every failure of Block leaves height 0 and the zero ID, and is
    one of: InvalidBlock for a malformed hash, a too-low index or a hash
    mismatch, UnknownBlock with the given index and hash, or a failure of
    the access client or the identifier codec wrapped with its context. *)
Theorem Block_failures (rosBlockID : identifier.Block) (w w' : World) height blockID err :
  Block rosBlockID w = ((height, blockID, Some err), w') ->
  height = 0 /\ blockID = ZeroID /\ expected rosBlockID err.
Proof.
  unfold_Block. unfold expected, contexts.
  repeat first
    [ progress case_bool_decide
    | match goal with
      | |- context [HexStringToIdentifier ?s] =>
          destruct (HexStringToIdentifier s) as [? [?|]]
      | |- context [Index rosBlockID] => destruct (Index rosBlockID) as [?|] eqn:?
      | |- context [GetLatestBlockHeader ?b ?x] =>
          destruct (GetLatestBlockHeader b x) as [[?|?] ?]
      | |- context [GetBlockHeaderByID ?i ?x] =>
          destruct (GetBlockHeaderByID i x) as [[?|?] ?]
      | |- context [GetBlockHeaderByHeight ?i ?x] =>
          destruct (GetBlockHeaderByHeight i x) as [[?|?] ?]
      | |- context [?a <? ?b] => destruct (a <? b)
      end ];
    intros [= <- <- <- <-]; (split; [done|]); (split; [done|]); cbn;
    try (by rewrite !elem_of_cons; tauto);
    eauto 10.
Qed.

(** X6: when the head is consulted (no index and no hash, or an index
    with an absent or well-formed hash) and the access client fails, Block
    returns the client's error wrapped with its context and makes no
    further call. *)
Theorem Block_head_failure (rosBlockID : identifier.Block) (w w1 : World) cause :
  (Index rosBlockID = None -> Hash rosBlockID = EmptyString) ->
  Hash rosBlockID = EmptyString \/ (HexStringToIdentifier (Hash rosBlockID)).2 = None ->
  GetLatestBlockHeader true w = (inl cause, w1) ->
  Block rosBlockID w
  = ((0, ZeroID,
      Some (wrapError (match Index rosBlockID with
                       | None => "could not retrieve last"
                       | Some _ => "could not get last"
                       end) cause)), w1).
Proof.
  intros Hlatest Hhash Hw. unfold_Block.
  destruct (Index rosBlockID) as [index|] eqn:Hindex.
  - rewrite bool_decide_eq_false_2 by (by intros [? _]).
    destruct Hhash as [Hempty|Hhex].
    + rewrite bool_decide_eq_false_2 by (by intros []).
      by rewrite first_floor, Hw.
    + destruct (HexStringToIdentifier (Hash rosBlockID)) as [i [e|]]; [discriminate|].
      case_bool_decide; by rewrite first_floor, Hw.
  - rewrite bool_decide_eq_true_2 by (split; [done | by apply Hlatest]).
    by rewrite Hw.
Qed.

Context `{!IdentifierText}.

(** X7: the identifier rosettaBlockID builds for a block is complete when
    the block ID prints as a non-empty text, and Block resolves it to the
    header at that height when that header is within the head and its ID
    prints as the same text. *)
Theorem Block_rosettaBlockID (height : N) (blockID : Identifier)
    (w w1 w2 : World) last header :
  IdentifierString blockID <> EmptyString ->
  (HexStringToIdentifier (IdentifierString blockID)).2 = None ->
  GetLatestBlockHeader true w = (inr last, w1) ->
  height <= Height last ->
  GetBlockHeaderByHeight height w1 = (inr header, w2) ->
  IdentifierString blockID = Hex (ID header) ->
  CompleteBlockID (rosettaBlockID height blockID) = None
  /\ Block (rosettaBlockID height blockID) w
     = ((Height header, (HexStringToIdentifier (IdentifierString blockID)).1, None), w2).
Proof.
  intros Htext Hhex Hw Hle Hw1 Hsame. split.
  - unfold CompleteBlockID, rosettaBlockID. cbn [Index Hash].
    by rewrite bool_decide_eq_false_2 by (by intros [?|?]).
  - unfold_Block. unfold rosettaBlockID. cbn [Index Hash].
    rewrite bool_decide_eq_false_2 by (by intros [? _]).
    rewrite bool_decide_eq_true_2 by done.
    destruct (HexStringToIdentifier (IdentifierString blockID)) as [i [e|]] eqn:Hdecode;
      [discriminate|].
    rewrite first_floor, Hw.
    destruct (N.ltb_spec (Height last) height) as [|_]; [lia|].
    rewrite Hw1, bool_decide_eq_false_2 by (by intros [_ ?]).
    by rewrite <- Hsame, Hdecode.
Qed.

End validator_paths.

Section validator_paths_examples.
Import failure identifier flow validator blockid blockfailure fixture fixtures.

Lemma Block_rejects_malformed_hash_witness :
  Block {| Index := None; Hash := "0xyz" |} chain
  = ((0, ZeroID, Some (InvalidBlock (NewDescription blockInvalid
        [WithString "block_hash" "0xyz"]))), chain).
Proof.
  exact (Block_rejects_malformed_hash {| Index := None; Hash := "0xyz" |} chain
           (errorString "malformed input") ltac:(done) eq_refl).
Defined.

Lemma Block_index_only_witness :
  Block {| Index := Some 3; Hash := EmptyString |} chain
  = ((3, repeatChar 64 "d", None), chain).
Proof.
  refine (Block_index_only {| Index := Some 3; Hash := EmptyString |} 3
            chain chain chain {| ID := repeatChar 64 "f"; Height := 5 |}
            {| ID := repeatChar 64 "d"; Height := 3 |} (repeatChar 64 "d")
            eq_refl eq_refl eq_refl _ eq_refl eq_refl).
  done.
Defined.

Lemma Block_hash_only_witness :
  Block {| Index := None; Hash := repeatChar 64 "c" |} chain
  = ((2, repeatChar 64 "c", None), chain).
Proof.
  refine (proj1 (Block_hash_only {| Index := None; Hash := repeatChar 64 "c" |}
            chain chain chain {| ID := repeatChar 64 "c"; Height := 2 |}
            {| ID := repeatChar 64 "c"; Height := 2 |}
            eq_refl _ eq_refl eq_refl eq_refl) eq_refl).
  done.
Defined.

Lemma Block_success_sound_witness :
  HexStringToIdentifier (repeatChar 64 "e") = (repeatChar 64 "e", None)
  /\ exists index w0 header,
       GetBlockHeaderByHeight index w0 = (inr header, chain)
       /\ 4 = Height header
       /\ repeatChar 64 "e" = Hex (ID header)
       /\ (forall given, Some 4 = Some given -> index = given).
Proof.
  refine (Block_success_sound {| Index := Some 4; Hash := repeatChar 64 "e" |}
            chain chain 4 (repeatChar 64 "e") eq_refl _).
  done.
Defined.

Lemma Block_failures_witness :
  0 = 0 /\ ZeroID = ZeroID
  /\ expected {| Index := Some 10; Hash := EmptyString |}
       (UnknownBlock 10 EmptyString
          (NewDescription blockTooHigh [WithUint64 "last_index" 5])).
Proof.
  exact (Block_failures {| Index := Some 10; Hash := EmptyString |} chain chain
           0 ZeroID _ eq_refl).
Defined.

Lemma Block_head_failure_witness :
  Block {| Index := Some 1; Hash := EmptyString |} []
  = ((0, ZeroID, Some (wrapError "could not get last" (errorString "no block"))), []).
Proof.
  refine (Block_head_failure {| Index := Some 1; Hash := EmptyString |} [] []
            (errorString "no block") _ (or_introl eq_refl) eq_refl).
  done.
Defined.

Lemma Block_rosettaBlockID_witness :
  CompleteBlockID (rosettaBlockID 3 (repeatChar 64 "d")) = None
  /\ Block (rosettaBlockID 3 (repeatChar 64 "d")) chain
     = ((3, repeatChar 64 "d", None), chain).
Proof.
  refine (Block_rosettaBlockID 3 (repeatChar 64 "d") chain chain chain
            {| ID := repeatChar 64 "f"; Height := 5 |}
            {| ID := repeatChar 64 "d"; Height := 3 |}
            _ eq_refl eq_refl _ eq_refl eq_refl); done.
Defined.

End validator_paths_examples.

(** ** The generator: overrides and construction *)

Section generator_overrides.
Import flow template scripts rendering.

(** Every override script of the table parses, prints known fields only,
    and names the token's address, its balance path and the address of the
    fungible-token standard. *)
Lemma mainnetContracts_parsed key contract :
  (key, contract) ∈ mainnetContracts ->
  exists t,
    Parse contract = (t, None)
    /\ wellScoped t = true
    /\ FieldNode ["Token"; "Address"] ∈ t
    /\ FieldNode ["Token"; "Balance"] ∈ t
    /\ FieldNode ["Params"; "FungibleToken"] ∈ t.
Proof.
  unfold mainnetContracts. rewrite !elem_of_cons, elem_of_nil.
  intros [[= -> ->]|[[= -> ->]|[]]].
  - exists (Parse contract_c6c77b9f5c7a378f).1.
    split_and!; [by vm_compute | by vm_compute | ..];
      apply (bool_decide_unpack _); by vm_compute.
  - exists (Parse contract_d796ff17107bbff6).1.
    split_and!; [by vm_compute | by vm_compute | ..];
      apply (bool_decide_unpack _); by vm_compute.
Qed.

(** What Custom finds under an address of the table. *)
Lemma Custom_table_entry `{Builtins} params g symbol key contract :
  NewGenerator params = Done g ->
  (key, contract) ∈ mainnetContracts ->
  exists t,
    Parse contract = (t, None)
    /\ g_params g = params
    /\ Custom g symbol Mainnet (HexToAddress key)
       = (true, (bytes g t symbol).1, (bytes g t symbol).2).
Proof.
  intros (Hparams & _ & custom & Hcustom & Hg)%NewGenerator_done Hin.
  apply compileContracts_done in Hcustom as [_ Hpresent].
  destruct (Hpresent mainnetContracts_NoDup key contract Hin) as (t & Hparse & Hlookup).
  exists t. split_and!; [done..|].
  unfold Custom. rewrite Hg, lookup_insert_eq, Hlookup.
  by destruct (bytes g t symbol).
Qed.

(** X8: under an address of the override table, Custom reports found even
    when the symbol is not registered: it returns true, no bytes and the
    invalid-token-symbol error. *)
Theorem Custom_found_with_unknown_symbol `{Builtins} params g symbol key contract :
  NewGenerator params = Done g ->
  (key, contract) ∈ mainnetContracts ->
  dps.Tokens params !! symbol = None ->
  Custom g symbol Mainnet (HexToAddress key)
  = (true, EmptyString, Some (invalidSymbol symbol)).
Proof.
  intros Hnew Hin Hnone.
  destruct (Custom_table_entry params g symbol key contract Hnew Hin)
    as (t & _ & Hparams & ->).
  rewrite <- Hparams in Hnone. by rewrite (bytes_unknown g t symbol Hnone).
Qed.

(** X9: under an address of the override table and for a registered
    symbol, Custom returns true, no error and a script that contains the
    token's address, its balance path and the address of the
    fungible-token standard: rendering an override never fails. *)
Theorem Custom_renders_override `{Builtins} params g symbol token key contract :
  NewGenerator params = Done g ->
  (key, contract) ∈ mainnetContracts ->
  dps.Tokens params !! symbol = Some token ->
  exists script,
    Custom g symbol Mainnet (HexToAddress key) = (true, script, None)
    /\ contains (AddressString (dps.Address token)) script
    /\ contains (dps.Balance token) script
    /\ contains (AddressString (dps.FungibleToken params)) script.
Proof.
  intros Hnew Hin Htoken.
  destruct (Custom_table_entry params g symbol key contract Hnew Hin)
    as (t & Hparse & Hparams & ->).
  destruct (mainnetContracts_parsed key contract Hin)
    as (t' & Hparse' & Hscoped & Haddress & Hbalance & Hstandard).
  rewrite Hparse in Hparse'. injection Hparse' as <-.
  rewrite <- Hparams in Htoken.
  destruct (bytes_known g t symbol token Htoken Hscoped) as (script & -> & Hexec).
  exists script. rewrite <- Hparams.
  split_and!; [done|..].
  - exact (Execute_contains _ _ _ _ _ _ Hexec Haddress eq_refl).
  - exact (Execute_contains _ _ _ _ _ _ Hexec Hbalance eq_refl).
  - exact (Execute_contains _ _ _ _ _ _ Hexec Hstandard eq_refl).
Qed.

(** X10: NewGenerator returns a generator exactly when the five
    parameter templates parse; the staked-balance template and the
    override scripts of the package never make it panic. *)
Theorem NewGenerator_succeeds_iff `{Builtins} params :
  (exists g, NewGenerator params = Done g)
  <-> Forall (fun text => (Parse text).2 = None)
        [getBalance; transferTokens; tokensDeposited; tokensWithdrawn; delegatorRewardsPaid].
Proof.
  assert (Hstaked : (Parse getStakedBalance).2 = None) by (by vm_compute).
  assert (Hcustom : exists custom, compileContracts mainnetContracts ∅ = Done custom).
  { eexists. vm_compute. reflexivity. }
  destruct Hcustom as [custom Hcustom].
  unfold NewGenerator, mbind, outcome_bind, mret, outcome_ret, Must.
  rewrite Hcustom. rewrite !Forall_cons.
  destruct (Parse getStakedBalance) as [? [?|]]; [discriminate|].
  destruct (Parse getBalance) as [? [?|]];
    [split; [by intros [? ?] | by intros [? _]]|].
  destruct (Parse transferTokens) as [? [?|]];
    [split; [by intros [? ?] | by intros (_ & ? & _)]|].
  destruct (Parse tokensDeposited) as [? [?|]];
    [split; [by intros [? ?] | by intros (_ & _ & ? & _)]|].
  destruct (Parse tokensWithdrawn) as [? [?|]];
    [split; [by intros [? ?] | by intros (_ & _ & _ & ? & _)]|].
  destruct (Parse delegatorRewardsPaid) as [? [?|]];
    [split; [by intros [? ?] | by intros (_ & _ & _ & _ & ? & _)]|].
  split; [intros _; by repeat split | intros _; by eexists].
Qed.

End generator_overrides.

Section generator_overrides_examples.
Import flow template scripts rendering fixture.

Lemma Custom_found_with_unknown_symbol_witness :
  exists g,
    NewGenerator params = Done g
    /\ Custom g "USDC" Mainnet (HexToAddress "c6c77b9f5c7a378f")
       = (true, EmptyString, Some (invalidSymbol "USDC")).
Proof.
  destruct NewGenerator_fixture as [g Hg]. exists g. split; [done|].
  refine (Custom_found_with_unknown_symbol params g "USDC" "c6c77b9f5c7a378f"
            contract_c6c77b9f5c7a378f Hg _ eq_refl).
  apply elem_of_cons. by left.
Defined.

Lemma Custom_renders_override_witness :
  exists g script,
    NewGenerator params = Done g
    /\ Custom g "FLOW" Mainnet (HexToAddress "d796ff17107bbff6") = (true, script, None)
    /\ contains "1654653399040a61" script
    /\ contains "/public/flowTokenBalance" script
    /\ contains "f233dcee88fe0abe" script.
Proof.
  destruct NewGenerator_fixture as [g Hg].
  destruct (Custom_renders_override params g "FLOW" flowToken "d796ff17107bbff6"
              contract_d796ff17107bbff6 Hg) as (script & ? & ? & ? & ?); [|done|].
  { apply elem_of_cons. right. apply elem_of_cons. by left. }
  by exists g, script.
Defined.

End generator_overrides_examples.

(** ** flatten: which value a key holds *)

Section assignment_facts.
Import retriever assignments.

Lemma insertAll_cons item items result :
  insertAll (item :: items) result = insertAll items (<[item.1 := item.2]> result).
Proof. reflexivity. Qed.

Lemma insertAll_lookup_absent items : forall result key,
  (forall i k t, items !! i = Some (k, t) -> k <> key) ->
  insertAll items result !! key = result !! key.
Proof.
  induction items as [|[k t] items IH]; intros result key Habsent; [done|].
  rewrite insertAll_cons, IH.
  - apply lookup_insert_ne. by apply (Habsent 0%nat k t).
  - intros i k' t' Hi. by apply (Habsent (S i) k' t').
Qed.

Lemma insertAll_lookup_last items : forall result i key t,
  items !! i = Some (key, t) ->
  (forall i' k' t', (i < i')%nat -> items !! i' = Some (k', t') -> k' <> key) ->
  insertAll items result !! key = Some t.
Proof.
  induction items as [|[k x] items IH]; intros result i key t Hi Hlast; [done|].
  rewrite insertAll_cons. destruct i as [|i]; cbn in Hi.
  - injection Hi as -> ->. rewrite insertAll_lookup_absent.
    + apply lookup_insert_eq.
    + intros i' k' t' Hi'. apply (Hlast (S i') k' t'); [lia | done].
  - apply (IH _ i); [done|]. intros i' k' t' Hlt Hi'.
    apply (Hlast (S i') k' t'); [lia | done].
Qed.

Lemma insertAll_size_le items : forall result,
  (size (insertAll items result) <= size result + length items)%nat.
Proof.
  induction items as [|[k x] items IH]; intros result; cbn [length]; [cbn; lia|].
  rewrite insertAll_cons. etrans; [apply IH|]. cbn [fst snd].
  rewrite map_size_insert. destruct (result !! k); cbn; lia.
Qed.

Lemma insertAll_size items : forall result,
  NoDup items.*1 ->
  (forall key, key ∈ items.*1 -> result !! key = None) ->
  size (insertAll items result) = (size result + length items)%nat.
Proof.
  induction items as [|[k x] items IH]; intros result Hnodup Hfresh; [cbn; lia|].
  cbn in Hnodup. apply NoDup_cons in Hnodup as [Hk Hnodup].
  rewrite insertAll_cons, IH; [|done|]; cbn [fst snd].
  - rewrite map_size_insert_None; [cbn; lia|]. apply Hfresh. cbn. apply elem_of_cons. by left.
  - intros key Hkey. rewrite lookup_insert_ne; [|by intros ->].
    apply Hfresh. cbn. apply elem_of_cons. by right.
Qed.

End assignment_facts.

Section flatten_keys.
Import cadence retriever shape assignments.
Context `{Text}.

(** The struct loop assigns the flattened values under the declared
    names, in order. *)
Lemma flattenFields_insertAll rec names fields : forall j result t,
  flattenFields rec names j fields result = Done t ->
  exists ts,
    Forall2 (fun v x => rec v = Done x) fields ts
    /\ (length fields <= length names - j)%nat
    /\ t = FMap (insertAll
                   (zip (Identifier <$> take (length fields) (drop j names)) ts) result).
Proof.
  induction fields as [|v rest IH]; intros j result t Hloop; cbn in Hloop.
  - injection Hloop as <-. exists [].
    split; [done|]. split; [cbn; lia | done].
  - destruct (names !! j) as [name|] eqn:Hname; [|discriminate].
    destruct (rec v) as [x|] eqn:Hv; [|discriminate].
    apply IH in Hloop as (ts & Hall & Hlen & ->).
    pose proof (lookup_lt_Some _ _ _ Hname).
    exists (x :: ts).
    split; [by constructor|]. split; [cbn; lia|].
    cbn [length]. by rewrite (drop_S _ _ _ Hname).
Qed.

(** The dictionary loop assigns the flattened values under the texts of
    their keys, in order. *)
Lemma flattenPairs_insertAll rec pairs : forall result t,
  flattenPairs rec pairs result = Done t ->
  exists ts,
    Forall2 (fun item x => rec item.2 = Done x) pairs ts
    /\ t = FMap (insertAll (zip ((fun item => ValueString item.1) <$> pairs) ts) result).
Proof.
  induction pairs as [|[k v] rest IH]; intros result t Hloop; cbn in Hloop.
  - injection Hloop as <-. by exists [].
  - destruct (rec v) as [x|] eqn:Hv; [|discriminate].
    apply IH in Hloop as (ts & Hall & ->).
    exists (x :: ts). split; [by constructor | done].
Qed.

(** X11: in the mapping a struct flattens to, a declared name holds the
    flattened value of the last field value declared under that name; when
    the names of the field values are distinct, the mapping has exactly
    one entry per field value. *)
Theorem flatten_struct_last_name_wins ty fields entries :
  flatten (Struct (Some ty) fields) = Done (FMap entries) ->
  (forall j name subField,
     Fields ty !! j = Some name -> fields !! j = Some subField ->
     (forall j' name', (j < j' < length fields)%nat -> Fields ty !! j' = Some name' ->
        Identifier name' <> Identifier name) ->
     exists t, flatten subField = Done t /\ entries !! Identifier name = Some t)
  /\ (NoDup (Identifier <$> take (length fields) (Fields ty)) ->
      size entries = length fields).
Proof.
  rewrite flatten_Struct. intros (ts & Hall & Hlen & [= ->])%flattenFields_insertAll.
  rewrite drop_0 in *. rewrite Nat.sub_0_r in Hlen.
  pose proof (Forall2_length _ _ _ Hall) as Hts.
  set (keys := Identifier <$> take (length fields) (Fields ty)).
  assert (Hkeys : length keys = length fields).
  { unfold keys. rewrite length_fmap, length_take. lia. }
  assert (Hkey : forall j key, keys !! j = Some key <->
            (j < length fields)%nat /\ exists name, Fields ty !! j = Some name
                                                    /\ Identifier name = key).
  { intros j key. unfold keys. rewrite list_lookup_fmap, fmap_Some. split.
    - intros (name & [Hname Hlt]%lookup_take_Some & ->). split; [done|]. by exists name.
    - intros (Hlt & name & Hname & <-). exists name. split; [|done].
      by apply lookup_take_Some. }
  split.
  - intros j name subField Hname Hj Hlast.
    destruct (Forall2_lookup_l _ _ _ _ _ Hall Hj) as (t & Ht & Hflat).
    exists t. split; [done|].
    apply (insertAll_lookup_last _ _ j).
    + apply lookup_zip_with_Some. exists (Identifier name), t. split_and!; [done| |done].
      apply Hkey. split; [by eapply lookup_lt_Some | by exists name].
    + intros j' k' t' Hlt (k'' & t'' & [= <- <-] & Hk' & _)%lookup_zip_with_Some.
      apply Hkey in Hk' as (Hj' & name' & Hname' & <-).
      by apply (Hlast j' name').
  - intros Hnodup. rewrite insertAll_size.
    + rewrite map_size_empty, length_zip. lia.
    + by rewrite fst_zip by lia.
    + intros key _. apply lookup_empty.
Qed.

(** X12: in the mapping a dictionary flattens to, the text of a key holds
    the flattened value of the last pair whose key prints as that text;
    the mapping has at most one entry per pair, and exactly one when the
    key texts are distinct. *)
Theorem flatten_dictionary_last_key_wins pairs entries :
  flatten (Dictionary pairs) = Done (FMap entries) ->
  (forall i k v,
     pairs !! i = Some (k, v) ->
     (forall i' k' v', (i < i')%nat -> pairs !! i' = Some (k', v') ->
        ValueString k' <> ValueString k) ->
     exists t, flatten v = Done t /\ entries !! ValueString k = Some t)
  /\ (size entries <= length pairs)%nat
  /\ (NoDup (ValueString <$> pairs.*1) -> size entries = length pairs).
Proof.
  rewrite flatten_Dictionary. intros (ts & Hall & [= ->])%flattenPairs_insertAll.
  pose proof (Forall2_length _ _ _ Hall) as Hts.
  set (keys := (fun item : Value * Value => ValueString item.1) <$> pairs).
  assert (Hkeys : length keys = length pairs) by (unfold keys; by rewrite length_fmap).
  split_and!.
  - intros i k v Hi Hlast.
    destruct (Forall2_lookup_l _ _ _ _ _ Hall Hi) as (t & Ht & Hflat).
    exists t. split; [done|].
    apply (insertAll_lookup_last _ _ i).
    + apply lookup_zip_with_Some. exists (ValueString k), t. split_and!; [done| |done].
      unfold keys. by rewrite list_lookup_fmap, Hi.
    + intros i' k' t' Hlt (k'' & t'' & [= <- <-] & Hk' & _)%lookup_zip_with_Some.
      unfold keys in Hk'. rewrite list_lookup_fmap in Hk'.
      destruct (pairs !! i') as [[key' v']|] eqn:Hi'; [|discriminate].
      injection Hk' as <-. by apply (Hlast i' key' v').
  - etrans; [apply insertAll_size_le|]. rewrite map_size_empty, length_zip. lia.
  - intros Hnodup. rewrite insertAll_size.
    + rewrite map_size_empty, length_zip. lia.
    + rewrite fst_zip by lia. unfold keys. by rewrite <- list_fmap_compose in Hnodup.
    + intros key _. apply lookup_empty.
Qed.

(** X13: an array flattens exactly when each of its elements does, to
    the list of their flattened values in order. *)
Theorem flatten_array_elementwise values items :
  flatten (Array values) = Done (FList items)
  <-> Forall2 (fun v t => flatten v = Done t) values items.
Proof.
  rewrite flatten_Array. split.
  - by intros (items' & [= ->] & Hall)%flattenValues_done.
  - assert (Hloop : forall result,
              Forall2 (fun v t => flatten v = Done t) values items ->
              flattenValues flatten values result = Done (FList (result ++ items))).
    { intros result Hall. revert result.
      induction Hall as [|v t values items Hv Hall IH]; intros result; cbn.
      - by rewrite app_nil_r.
      - by rewrite Hv, IH, <- app_assoc. }
    intros Hall. by rewrite (Hloop [] Hall).
Qed.

End flatten_keys.

Section flatten_keys_examples.
Import cadence retriever shape fixture.

Lemma flatten_struct_last_name_wins_witness :
  exists t,
    flatten (Scalar "2") = Done t
    /\ ({[ "id" := FString "2" ]} : gmap string Flat) !! "id" = Some t.
Proof.
  refine (proj1 (flatten_struct_last_name_wins
            {| Fields := [ {| Identifier := "id" |}; {| Identifier := "id" |} ] |}
            [Scalar "1"; Scalar "2"] {[ "id" := FString "2" ]} _)
            1%nat {| Identifier := "id" |} (Scalar "2") eq_refl eq_refl _).
  - by vm_compute.
  - intros j' name' Hlt. cbn in Hlt. lia.
Defined.

Lemma flatten_dictionary_last_key_wins_witness :
  exists t,
    flatten (Scalar "9") = Done t
    /\ ({[ "staked" := FString "9" ]} : gmap string Flat) !! "staked" = Some t.
Proof.
  refine (proj1 (flatten_dictionary_last_key_wins
            [(Scalar "staked", Scalar "7"); (Scalar "staked", Scalar "9")]
            {[ "staked" := FString "9" ]} _)
            1%nat (Scalar "staked") (Scalar "9") eq_refl _).
  - by vm_compute.
  - intros [|[|i']] k' v' Hlt Hi'; [lia | lia | discriminate Hi'].
Defined.

End flatten_keys_examples.

(** ** UFix64ToUInt64String: the numeral it returns *)

Section numeral_output.
Import numeral cadence.

Lemma FormatUint_value v : decimalValue (strconv.FormatUint v) = v.
Proof.
  unfold strconv.FormatUint.
  rewrite <- (of_uint_decimalValue _ (N.to_uint v) (NilEmpty.usu _)).
  apply DecimalN.Unsigned.of_to.
Qed.

Lemma FormatUint_digits v : allDigits (strconv.FormatUint v) = true.
Proof. exact (uint_of_string_digits _ _ (NilEmpty.usu (N.to_uint v))). Qed.

Lemma FormatUint_is_canonical v : canonical (strconv.FormatUint v) = true.
Proof.
  unfold strconv.FormatUint.
  assert (Hnorm : unorm (N.to_uint v) = N.to_uint v).
  { rewrite <- (DecimalN.Unsigned.of_to v) at 2. symmetry. apply DecimalN.Unsigned.to_of. }
  pose proof (to_uint_nonnil v) as Hnonnil.
  destruct (N.to_uint v) as [|d|d|d|d|d|d|d|d|d|d]; try done;
    try (cbn; by destruct (NilEmpty.string_of_uint d)).
  destruct d as [|d|d|d|d|d|d|d|d|d|d]; [done|..];
    (rewrite unorm_D0 in Hnorm;
     match type of Hnorm with
     | unorm ?u = _ =>
         pose proof (nb_digits_unorm u ltac:(discriminate)) as Hnb;
         rewrite Hnorm in Hnb; cbn in Hnb; lia
     end).
Qed.

(** X14: whenever UFix64ToUInt64String succeeds, its output is the
    canonical decimal numeral of the parsed value: digits only, no
    redundant leading zero, it reads back as that value, and the value
    fits 64 bits. *)
Theorem UFix64ToUInt64String_numeral s r :
  retriever.UFix64ToUInt64String s = (r, None) ->
  exists v,
    NewUFix64 s = (v, None)
    /\ allDigits r = true
    /\ canonical r = true
    /\ decimalValue r = v
    /\ v <= maxUFix64.
Proof.
  unfold retriever.UFix64ToUInt64String.
  destruct (NewUFix64 s) as [v [err|]] eqn:Hparse; [discriminate|].
  intros [= <-]. exists v.
  apply NewUFix64_ok in Hparse as (_ & _ & _ & _ & _ & _ & _ & _ & Hmax).
  split_and!; [done | apply FormatUint_digits | apply FormatUint_is_canonical
              | apply FormatUint_value | done].
Qed.

Lemma UFix64ToUInt64String_numeral_witness :
  exists v,
    NewUFix64 "007.50000000" = (v, None)
    /\ allDigits "750000000" = true
    /\ canonical "750000000" = true
    /\ decimalValue "750000000" = v
    /\ v <= maxUFix64.
Proof. exact (UFix64ToUInt64String_numeral "007.50000000" "750000000" eq_refl). Defined.

End numeral_output.

(** ** The staking-node script *)

Section staking_facts.
Import staking.
Context `{FlowIDTableStaking}.

Lemma plus_Some a b c : plus a b = Some c -> c = a + b /\ c <= cadence.maxUFix64.
Proof.
  unfold plus. destruct (N.ltb_spec cadence.maxUFix64 (a + b)); [discriminate|].
  intros [= <-]. by split.
Qed.

Lemma collect_Some id delegatorIDs : forall delegators0 balance0 delegators balance,
  collect id delegatorIDs delegators0 balance0 = Some (delegators, balance) ->
  exists found totals,
    delegators = delegators0 ++ found
    /\ Forall2 (fun delegatorID info => DelegatorInfo id delegatorID = Some info)
         delegatorIDs found
    /\ Forall2 (fun info total => delegatorTotalTokensInRecord info = Some total)
         found totals
    /\ balance = balance0 + foldr N.add 0 totals
    /\ (balance0 <= cadence.maxUFix64 -> balance <= cadence.maxUFix64).
Proof.
  induction delegatorIDs as [|delegatorID rest IH];
    intros delegators0 balance0 delegators balance Hcollect; cbn in Hcollect.
  - injection Hcollect as <- <-. exists [], []. rewrite app_nil_r. cbn.
    split_and!; [done | done | done | lia | lia].
  - destruct (DelegatorInfo id delegatorID) as [info|] eqn:Hinfo; [|discriminate].
    cbn in Hcollect.
    destruct (delegatorTotalTokensInRecord info) as [total|] eqn:Htotal; [|discriminate].
    cbn in Hcollect.
    destruct (plus balance0 total) as [balance1|] eqn:Hplus; [|discriminate].
    cbn in Hcollect. apply plus_Some in Hplus as [-> Hfits].
    apply IH in Hcollect as (found & totals & -> & Hfound & Htotals & -> & Hle).
    exists (info :: found), (total :: totals). rewrite <- app_assoc. cbn.
    split_and!; [done | by constructor | by constructor | lia | intros _; by apply Hle].
Qed.

(** X15: when the staking-node script returns, its node is the record of
    the given ID, its delegators are the records of the node's delegator
    IDs in the node's order, and its staked balance is the node's own
    total plus the totals of those delegators; the sum fits 64 bits when
    the node's own total does. *)
Theorem StakingNodeInfo_total id info :
  main id = Some info ->
  NodeInfo id = Some (node info)
  /\ Forall2 (fun delegatorID record =>
                DelegatorInfo (nodeID (node info)) delegatorID = Some record)
       (nodeDelegators (node info)) (delegators info)
  /\ exists own totals,
       nodeTotalTokensInRecord (node info) = Some own
       /\ Forall2 (fun record total => delegatorTotalTokensInRecord record = Some total)
            (delegators info) totals
       /\ stakedBalance info = own + foldr N.add 0 totals
       /\ (own <= cadence.maxUFix64 -> stakedBalance info <= cadence.maxUFix64).
Proof.
  unfold main, init.
  destruct (NodeInfo id) as [record|] eqn:Hnode; [|discriminate]. cbn.
  destruct (nodeTotalTokensInRecord record) as [own|] eqn:Hown; [|discriminate]. cbn.
  destruct (collect (nodeID record) (nodeDelegators record) [] own)
    as [[found balance]|] eqn:Hcollect; [|discriminate]. cbn.
  intros [= <-]. cbn.
  apply collect_Some in Hcollect as (found' & totals & -> & Hfound & Htotals & -> & Hfits).
  cbn. split_and!; [done | done |].
  exists own, totals. by split_and!.
Qed.

Lemma collect_totals id delegatorIDs : forall found totals totals',
  Forall2 (fun delegatorID info => DelegatorInfo id delegatorID = Some info)
    delegatorIDs found ->
  Forall2 (fun info total => delegatorTotalTokensInRecord info = Some total)
    found totals' ->
  Forall2 (fun delegatorID total =>
             exists info, DelegatorInfo id delegatorID = Some info
               /\ delegatorTotalTokensInRecord info = Some total)
    delegatorIDs totals ->
  totals' = totals.
Proof.
  induction delegatorIDs as [|delegatorID rest IH]; intros found totals totals' Hfound Hsum Hall.
  - inversion Hfound; subst. inversion Hsum; subst. by inversion Hall.
  - inversion Hfound as [|? info ? found' Hinfo Hrest]; subst.
    inversion Hsum as [|? total' ? totals0' Htotal' Hsum']; subst.
    inversion Hall as [|? total ? totals0 (info0 & Hinfo0 & Htotal) Hall']; subst.
    rewrite Hinfo in Hinfo0. injection Hinfo0 as <-.
    rewrite Htotal' in Htotal. injection Htotal as <-.
    f_equal. by eapply IH.
Qed.

(** X16: the staking-node script aborts rather than wrap around: when
    the node's own total and its delegators' totals add up to more than
    a UFix64 holds, it returns nothing. *)
Theorem StakingNodeInfo_overflow id record own totals :
  NodeInfo id = Some record ->
  nodeTotalTokensInRecord record = Some own ->
  own <= cadence.maxUFix64 ->
  Forall2 (fun delegatorID total =>
             exists info, DelegatorInfo (nodeID record) delegatorID = Some info
               /\ delegatorTotalTokensInRecord info = Some total)
    (nodeDelegators record) totals ->
  cadence.maxUFix64 < own + foldr N.add 0 totals ->
  main id = None.
Proof.
  intros Hnode Hown Hfits Hall Hover. unfold main, init.
  rewrite Hnode. cbn. rewrite Hown. cbn.
  destruct (collect (nodeID record) (nodeDelegators record) [] own)
    as [[found balance]|] eqn:Hcollect; [|done].
  apply collect_Some in Hcollect as (found' & totals' & -> & Hfound & Hsum & -> & Hle).
  rewrite (collect_totals _ _ _ _ _ Hfound Hsum Hall) in Hle.
  specialize (Hle Hfits). lia.
Qed.

End staking_facts.

Section staking_examples.
Import staking.

Lemma StakingNodeInfo_total_witness :
  main "node-1" = Some node1
  /\ NodeInfo "node-1" = Some (node node1)
  /\ Forall2 (fun delegatorID record =>
                DelegatorInfo (nodeID (node node1)) delegatorID = Some record)
       (nodeDelegators (node node1)) (delegators node1)
  /\ exists own totals,
       nodeTotalTokensInRecord (node node1) = Some own
       /\ Forall2 (fun record total => delegatorTotalTokensInRecord record = Some total)
            (delegators node1) totals
       /\ stakedBalance node1 = own + foldr N.add 0 totals
       /\ (own <= cadence.maxUFix64 -> stakedBalance node1 <= cadence.maxUFix64).
Proof.
  split; [reflexivity|].
  exact (@StakingNodeInfo_total sample "node-1" node1 eq_refl).
Defined.

Lemma StakingNodeInfo_overflow_witness : main "node-3" = None.
Proof.
  apply (@StakingNodeInfo_overflow sample "node-3"
           ("node-3", (cadence.maxUFix64, [(1, 1)])) cadence.maxUFix64 [1]).
  - reflexivity.
  - reflexivity.
  - vm_compute. discriminate.
  - constructor; [|constructor]. exists (1, 1). by split.
  - vm_compute. reflexivity.
Defined.

End staking_examples.

(** * The floor, the templates and the override table *)

(** ** Validator.Block: the floor of the index *)

Section validator_floor.
Import failure identifier flow validator.
Context `{Identifiers} {World : Type} `{!AccessAPI World} `{Texts}.

(** No call of Block returns the too-low failure: the floor it compares
    the index with is the constant 0. *)
Lemma Block_never_too_low (rosBlockID : identifier.Block) (w : World) index floor :
  (Block rosBlockID w).1.2
  <> Some (InvalidBlock (NewDescription blockTooLow
       [WithUint64 "block_index" index; WithUint64 "first_index" floor])).
Proof.
  unfold Block; cbn beta.
  unfold mbind, M_bind, mret, M_ret, try, fail.
  repeat first
    [ rewrite first_floor
    | progress case_bool_decide
    | match goal with
      | |- context [HexStringToIdentifier ?s] =>
          destruct (HexStringToIdentifier s) as [? [?|]]
      | |- context [Index rosBlockID] => destruct (Index rosBlockID) as [?|] eqn:?
      | |- context [GetLatestBlockHeader ?b ?x] =>
          destruct (GetLatestBlockHeader b x) as [[?|?] ?]
      | |- context [GetBlockHeaderByID ?i ?x] =>
          destruct (GetBlockHeaderByID i x) as [[?|?] ?]
      | |- context [GetBlockHeaderByHeight ?i ?x] =>
          destruct (GetBlockHeaderByHeight i x) as [[?|?] ?]
      | |- context [?a <? ?b] => destruct (a <? b)
      end ];
    cbn; congruence.
Qed.

(** An index within the head for which the access client has no header,
    as below the first block the node knows, gets the client's error. *)
Lemma Block_header_unavailable (rosBlockID : identifier.Block) index
    (w w1 w2 : World) last cause :
  Index rosBlockID = Some index ->
  Hash rosBlockID = EmptyString ->
  GetLatestBlockHeader true w = (inr last, w1) ->
  index <= Height last ->
  GetBlockHeaderByHeight index w1 = (inl cause, w2) ->
  Block rosBlockID w
  = ((0, ZeroID, Some (wrapError "could not get header" cause)), w2).
Proof.
  intros Hindex Hhash Hw Hle Hw1.
  unfold Block; cbn beta.
  unfold mbind, M_bind, mret, M_ret, try, fail.
  rewrite bool_decide_eq_false_2 by (rewrite Hindex; by intros [? _]).
  rewrite bool_decide_eq_false_2 by (by intros []).
  rewrite Hindex, first_floor, Hw.
  destruct (N.ltb_spec (Height last) index) as [|_]; [lia|].
  by rewrite Hw1.
Qed.

End validator_floor.

Section validator_floor_examples.
Import failure identifier flow validator fixture.

Lemma spork_no_header index :
  index < 50 ->
  GetBlockHeaderByHeight index spork.chain = (inl (errorString "not found"), spork.chain).
Proof.
  intros Hlow. cbn -[N.eqb].
  destruct (N.eqb_spec 50 index); [lia|].
  destruct (N.eqb_spec 51 index); [lia|].
  destruct (N.eqb_spec 52 index); [lia|]. done.
Qed.

(** C2, on the code: on a chain whose first known block is at height 50,
    the index 1, like every index below 50, is not refused with
    InvalidBlock (too low): Block goes on to ask for the header and
    returns the client's error wrapped with its context.  No call of
    Block, on any identifier and any chain, returns the too-low failure:
    the floor is the constant 0 that stands in for the index's first
    height.  The other bound is kept: an index above the head fails with
    UnknownBlock carrying the index and the head height. *)
Theorem Block_floor_not_enforced :
  Block {| Index := Some 1; Hash := EmptyString |} spork.chain
  = ((0, ZeroID, Some (wrapError "could not get header" (errorString "not found"))),
     spork.chain)
  /\ (forall index, index < 50 ->
        Block {| Index := Some index; Hash := EmptyString |} spork.chain
        = ((0, ZeroID, Some (wrapError "could not get header" (errorString "not found"))),
           spork.chain))
  /\ (forall (rosBlockID : identifier.Block) (w : list BlockHeader) index floor,
        (Block rosBlockID w).1.2
        <> Some (InvalidBlock (NewDescription blockTooLow
             [WithUint64 "block_index" index; WithUint64 "first_index" floor])))
  /\ (forall index (w : list BlockHeader) head,
        last w = Some head -> Height head < index ->
        Block {| Index := Some index; Hash := EmptyString |} w
        = ((0, ZeroID, Some (UnknownBlock index EmptyString
              (NewDescription blockTooHigh [WithUint64 "last_index" (Height head)]))), w)).
Proof.
  split_and!.
  - reflexivity.
  - intros index Hlow.
    eapply (Block_header_unavailable _ index);
      [done | done | reflexivity | cbn; lia | by apply spork_no_header].
  - intros rosBlockID w index floor. apply Block_never_too_low.
  - intros index w head Hhead Hhigh.
    refine (proj1 (Block_above_head {| Index := Some index; Hash := EmptyString |}
                     index w w head eq_refl (or_introl eq_refl) _) Hhigh).
    cbn. by rewrite Hhead.
Qed.

End validator_floor_examples.

(** ** The template operations on the modelled constants *)

Section generator_modelled.
Import flow template scripts rendering.

(** The parameter templates NewGenerator stores when it returns. *)
Lemma NewGenerator_templates `{Builtins} params g :
  NewGenerator params = Done g ->
  Parse getBalance = (g_getBalance g, None)
  /\ Parse transferTokens = (g_transferTokens g, None)
  /\ Parse tokensDeposited = (g_tokensDeposited g, None)
  /\ Parse tokensWithdrawn = (g_tokensWithdrawn g, None)
  /\ Parse delegatorRewardsPaid = (g_delegatorRewardsPaid g, None).
Proof.
  unfold NewGenerator, mbind, outcome_bind, mret, outcome_ret, Must.
  destruct (Parse getBalance) as [? [?|]]; [discriminate|].
  destruct (Parse getStakedBalance) as [? [?|]]; [discriminate|].
  destruct (Parse transferTokens) as [? [?|]]; [discriminate|].
  destruct (Parse tokensDeposited) as [? [?|]]; [discriminate|].
  destruct (Parse tokensWithdrawn) as [? [?|]]; [discriminate|].
  destruct (Parse delegatorRewardsPaid) as [? [?|]]; [discriminate|].
  destruct (compileContracts mainnetContracts ∅) as [mainnetCustom|]; [|discriminate].
  by intros [= <-].
Qed.

(** The modelled constants print known fields only, and the balance
    query names the token's address and its balance path. *)
Lemma modelled_wellScoped :
  Forall (fun text => wellScoped (Parse text).1 = true)
    [ modelled.getBalance; modelled.transferTokens; modelled.tokensDeposited;
      modelled.tokensWithdrawn; modelled.delegatorRewardsPaid ].
Proof. repeat constructor; by vm_compute. Qed.

Lemma modelled_getBalance_names :
  FieldNode ["Token"; "Address"] ∈ (Parse modelled.getBalance).1
  /\ FieldNode ["Token"; "Balance"] ∈ (Parse modelled.getBalance).1.
Proof. split; apply (bool_decide_unpack _); by vm_compute. Qed.

(** C8: with the five constants modelled from the spec, for a symbol
    the registry lacks every template operation fails with the
    invalid-token-symbol error; for a registered symbol every operation
    succeeds, and the balance query and the staked-balance query return
    a text that contains the token's address and its balance path.  So
    an operation fails only on an unregistered symbol, and only with
    that error. *)
Theorem render_fails_on_unknown_symbol_only params g symbol :
  @NewGenerator modelled.templates params = Done g ->
  (dps.Tokens params !! symbol = None ->
     forall op, render op g symbol = (EmptyString, Some (invalidSymbol symbol)))
  /\ (forall token, dps.Tokens params !! symbol = Some token ->
        forall op, exists script,
          render op g symbol = (script, None)
          /\ (op = opGetBalance \/ op = opGetStakedBalance ->
              contains (AddressString (dps.Address token)) script
              /\ contains (dps.Balance token) script))
  /\ (forall op err, (render op g symbol).2 = Some err ->
        dps.Tokens params !! symbol = None /\ err = invalidSymbol symbol).
Proof.
  intros Hnew.
  pose proof (@NewGenerator_done modelled.templates params g Hnew) as (_ & Hstaked & _).
  pose proof (@NewGenerator_templates modelled.templates params g Hnew)
    as (Hbalance & Htransfer & Hdeposited & Hwithdrawn & Hrewards).
  change (Parse modelled.getBalance = (g_getBalance g, None)) in Hbalance.
  change (Parse modelled.transferTokens = (g_transferTokens g, None)) in Htransfer.
  change (Parse modelled.tokensDeposited = (g_tokensDeposited g, None)) in Hdeposited.
  change (Parse modelled.tokensWithdrawn = (g_tokensWithdrawn g, None)) in Hwithdrawn.
  change (Parse modelled.delegatorRewardsPaid = (g_delegatorRewardsPaid g, None))
    in Hrewards.
  pose proof modelled_wellScoped as Hall.
  rewrite !Forall_cons in Hall.
  destruct Hall as (Hs1 & Hs2 & Hs3 & Hs4 & Hs5 & _).
  rewrite Hbalance in Hs1. rewrite Htransfer in Hs2. rewrite Hdeposited in Hs3.
  rewrite Hwithdrawn in Hs4. rewrite Hrewards in Hs5.
  cbn [fst] in Hs1, Hs2, Hs3, Hs4, Hs5.
  destruct getStakedBalance_parsed as (front & text & Hparsed & Hs0 & Haddress0 & Hbalance0).
  rewrite Hstaked in Hparsed. injection Hparsed as Hnodes.
  assert (Hscoped : forall op, wellScoped (templateOf op g) = true).
  { intros []; cbn; [done| |done..]. by rewrite Hnodes. }
  assert (Hnames : forall op, op = opGetBalance \/ op = opGetStakedBalance ->
            FieldNode ["Token"; "Address"] ∈ templateOf op g
            /\ FieldNode ["Token"; "Balance"] ∈ templateOf op g).
  { destruct modelled_getBalance_names as [Ha Hb].
    rewrite Hbalance in Ha, Hb. cbn [fst] in Ha, Hb.
    intros op [->| ->]; cbn; [done|].
    rewrite Hnodes. split; apply elem_of_app; by left. }
  destruct (@render_on_known_fields modelled.templates params g symbol Hnew)
    as [Hunknown Hknown].
  assert (Hsuccess : forall token, dps.Tokens params !! symbol = Some token ->
            forall op, exists script,
              render op g symbol = (script, None)
              /\ (op = opGetBalance \/ op = opGetStakedBalance ->
                  contains (AddressString (dps.Address token)) script
                  /\ contains (dps.Balance token) script)).
  { intros token Htoken op.
    destruct (Hknown token Htoken) as [_ Hop].
    destruct (Hop op (Hscoped op)) as (script & Hrender & Haddress & Hpath).
    exists script. split; [done|]. intros Hop'.
    destruct (Hnames op Hop') as [Ha Hb]. split; [by apply Haddress | by apply Hpath]. }
  split_and!; [done | done |].
  intros op err Herr.
  destruct (dps.Tokens params !! symbol) as [token|] eqn:Htoken.
  - destruct (Hsuccess token eq_refl op) as (script & Hrender & _).
    rewrite Hrender in Herr. discriminate Herr.
  - split; [done|]. rewrite (Hunknown eq_refl op) in Herr. by injection Herr as <-.
Qed.

End generator_modelled.

Section generator_modelled_examples.
Import flow template scripts rendering fixture.

Lemma NewGenerator_modelled : exists g, @NewGenerator modelled.templates params = Done g.
Proof. eexists. vm_compute. reflexivity. Qed.

Lemma render_fails_on_unknown_symbol_only_witness :
  exists g script,
    @NewGenerator modelled.templates params = Done g
    /\ render opTokensDeposited g "USDC" = (EmptyString, Some (invalidSymbol "USDC"))
    /\ GetBalance g "FLOW" = (script, None)
    /\ contains "1654653399040a61" script
    /\ contains "/public/flowTokenBalance" script.
Proof.
  destruct NewGenerator_modelled as [g Hg].
  destruct (render_fails_on_unknown_symbol_only params g "USDC" Hg) as (Hunknown & _ & _).
  destruct (render_fails_on_unknown_symbol_only params g "FLOW" Hg) as (_ & Hknown & _).
  destruct (Hknown flowToken eq_refl opGetBalance) as (script & Hscript & Hcontains).
  destruct (Hcontains (or_introl eq_refl)) as [Haddress Hpath].
  exists g, script. split_and!; [done | exact (Hunknown eq_refl opTokensDeposited) | done..].
Defined.

End generator_modelled_examples.

(** ** Generator.Custom and the override table *)

Section generator_override_table.
Import flow template scripts rendering.

(** C9: for a chain and address that the override table lacks, Custom
    returns false, no bytes and no error.  For an address of the table on
    mainnet it returns true and renders the override script as the
    standard operations render theirs, with [bytes]: on a symbol the
    registry lacks it returns no bytes and the invalid-token-symbol
    error; on a registered symbol it returns, with no error, the text the
    parsed override script executes to on the parameters and the token,
    which contains the token's address, its balance path and the address
    of the fungible-token standard. *)
Theorem Custom_follows_override_table `{Builtins} params g symbol chainID address :
  NewGenerator params = Done g ->
  (chainID <> Mainnet
   \/ (forall key contract, (key, contract) ∈ mainnetContracts -> HexToAddress key <> address) ->
   Custom g symbol chainID address = (false, EmptyString, None))
  /\ (forall key contract,
        chainID = Mainnet -> (key, contract) ∈ mainnetContracts ->
        address = HexToAddress key ->
        exists t,
          Parse contract = (t, None)
          /\ Custom g symbol chainID address
             = (true, (bytes g t symbol).1, (bytes g t symbol).2)
          /\ (dps.Tokens params !! symbol = None ->
              Custom g symbol chainID address
              = (true, EmptyString, Some (invalidSymbol symbol)))
          /\ (forall token, dps.Tokens params !! symbol = Some token ->
              exists script,
                Custom g symbol chainID address = (true, script, None)
                /\ Execute t EmptyString (data params token) = (script, None)
                /\ contains (AddressString (dps.Address token)) script
                /\ contains (dps.Balance token) script
                /\ contains (AddressString (dps.FungibleToken params)) script)).
Proof.
  intros Hnew. split.
  - apply NewGenerator_done in Hnew as (_ & _ & custom & Hcustom & Hg).
    apply compileContracts_done in Hcustom as [Habsent _].
    unfold Custom. rewrite Hg. intros [Hchain|Haddress].
    + by rewrite lookup_insert_ne.
    + destruct (decide (chainID = Mainnet)) as [->|Hchain];
        [|by rewrite lookup_insert_ne].
      rewrite lookup_insert_eq, (Habsent address Haddress). by rewrite lookup_empty.
  - intros key contract -> Hin ->.
    destruct (Custom_table_entry params g symbol key contract Hnew Hin)
      as (t & Hparse & Hparams & Hcustom).
    destruct (mainnetContracts_parsed key contract Hin)
      as (t' & Hparse' & Hscoped & Haddress & Hbalance & Hstandard).
    rewrite Hparse in Hparse'. injection Hparse' as <-.
    exists t. split_and!; [done | done | |].
    + intros Hnone. rewrite Hcustom. rewrite <- Hparams in Hnone.
      by rewrite (bytes_unknown g t symbol Hnone).
    + intros token Htoken. rewrite Hcustom. rewrite <- Hparams in Htoken.
      destruct (bytes_known g t symbol token Htoken Hscoped) as (script & -> & Hexec).
      exists script. rewrite <- Hparams.
      split_and!; [done | done |..].
      * exact (Execute_contains _ _ _ _ _ _ Hexec Haddress eq_refl).
      * exact (Execute_contains _ _ _ _ _ _ Hexec Hbalance eq_refl).
      * exact (Execute_contains _ _ _ _ _ _ Hexec Hstandard eq_refl).
Qed.

End generator_override_table.

Section generator_override_table_examples.
Import flow template scripts rendering fixture.

Lemma Custom_follows_override_table_witness :
  exists g t script,
    NewGenerator params = Done g
    /\ Custom g "FLOW" "flow-testnet" (HexToAddress "c6c77b9f5c7a378f")
       = (false, EmptyString, None)
    /\ Custom g "FLOW" Mainnet (HexToAddress "1654653399040a61")
       = (false, EmptyString, None)
    /\ Parse contract_d796ff17107bbff6 = (t, None)
    /\ Custom g "USDC" Mainnet (HexToAddress "d796ff17107bbff6")
       = (true, EmptyString, Some (invalidSymbol "USDC"))
    /\ Custom g "FLOW" Mainnet (HexToAddress "d796ff17107bbff6") = (true, script, None)
    /\ Execute t EmptyString (data params flowToken) = (script, None)
    /\ contains "1654653399040a61" script
    /\ contains "/public/flowTokenBalance" script
    /\ contains "f233dcee88fe0abe" script.
Proof.
  destruct NewGenerator_fixture as [g Hg].
  assert (Hin : ("d796ff17107bbff6", contract_d796ff17107bbff6) ∈ mainnetContracts).
  { apply elem_of_cons. right. apply elem_of_cons. by left. }
  destruct (Custom_follows_override_table params g "FLOW" "flow-testnet"
              (HexToAddress "c6c77b9f5c7a378f") Hg) as [Hchain _].
  destruct (Custom_follows_override_table params g "FLOW" Mainnet
              (HexToAddress "1654653399040a61") Hg) as [Haddress _].
  destruct (Custom_follows_override_table params g "USDC" Mainnet
              (HexToAddress "d796ff17107bbff6") Hg) as [_ Hunknown].
  destruct (Custom_follows_override_table params g "FLOW" Mainnet
              (HexToAddress "d796ff17107bbff6") Hg) as [_ Hfound].
  destruct (Hunknown _ _ eq_refl Hin eq_refl) as (_ & _ & _ & Herror & _).
  destruct (Hfound _ _ eq_refl Hin eq_refl) as (t & Hparse & _ & _ & Hrender).
  destruct (Hrender flowToken eq_refl) as (script & Hcustom & Hexec & Ha & Hb & Hc).
  exists g, t, script. split_and!; [done| | |done|by apply Herror|done..].
  - apply Hchain. by left.
  - apply Haddress. right. intros key contract Hin'.
    apply elem_of_cons in Hin' as [[= -> _]|Hin']; [by vm_compute|].
    apply elem_of_cons in Hin' as [[= -> _]|Hin']; [by vm_compute|].
    by apply elem_of_nil in Hin'.
Defined.

End generator_override_table_examples.
